(** * Character-level poem generator (LSTM.ipynb): model and properties

    A shallow embedding of the notebook's Python code:
    - [PoemDataset]: the vocabulary builder and the windowed indexer
      ([preprocess], [__len__], [__getitem__]);
    - [LSTMModel]: [forward] and [init_hidden] over the layers of the
      tensor library, which are taken as an interface ([TorchLib]) with
      the contracts the notebook relies on ([TorchLaws]);
    - [predict]: the greedy sampler;
    - the training loop of the last cell.

    Python values are modelled as follows.  A [str] is the list of its
    Unicode code points; a Python [int] used as an index or a length is a
    [Z] where the code computes with it ([range], slices) and a [nat] where
    it is a dictionary code or a tensor dimension; a [dict] is a [gmap]; a
    [set] is a [gset]; an exception is the [Raise] branch of [result].  The
    code that reads or changes the notebook's globals (the dataset, the
    model's parameters, the optimiser, the random state, the printed
    output) is written in the state-and-exception monad [M]. *)

From stdpp Require Import gmap list sorting.

Local Open Scope Z_scope.

(** ** Exceptions and results *)

Module Py.

(** Failures raised inside the tensor library. *)
Inductive torch_error :=
  | ShapeMismatch     (* RuntimeError: Expected hidden[0] size ..., got ... *)
  | IndexOutOfRange   (* IndexError: index out of range in self *)
  | OtherFailure.     (* any other RuntimeError of the library *)

Inductive exception :=
  | KeyError                       (* dict lookup of an absent key *)
  | IndexError                     (* index out of range *)
  | NameError                      (* reading an unbound variable *)
  | ValueError                     (* .item() on a tensor of several elements *)
  | TorchError (e : torch_error).

Inductive result (A : Type) :=
  | Ok (a : A)
  | Raise (e : exception).
Global Arguments Ok {A} a.
Global Arguments Raise {A} e.

Global Instance result_ret : MRet result := λ A a, Ok a.
Global Instance result_bind : MBind result := λ A B f m,
  match m with Ok a => f a | Raise e => Raise e end.

Definition of_torch {A} (r : torch_error + A) : result A :=
  match r with inr a => Ok a | inl e => Raise (TorchError e) end.

Global Instance torch_error_eq_dec : EqDecision torch_error.
Proof. solve_decision. Defined.
Global Instance exception_eq_dec : EqDecision exception.
Proof. solve_decision. Defined.

(** ** Python sequences *)

(** [range(lo, hi)] *)
Definition range (lo hi : Z) : list Z := seqZ lo (hi - lo).

(** Normalisation of one slice bound against a sequence of length [n]:
    a missing bound takes the default, a negative one counts from the end,
    and the result is clamped to [0, n]. *)
Definition slice_bound (n : Z) (default : Z) (b : option Z) : Z :=
  match b with
  | None => default
  | Some k => if decide (k < 0) then Z.max (k + n) 0 else Z.min k n
  end.

(** [l[lo:hi]] *)
Definition slice {A} (l : list A) (lo hi : option Z) : list A :=
  let n := Z.of_nat (length l) in
  let a := slice_bound n 0 lo in
  let b := slice_bound n n hi in
  take (Z.to_nat (b - a)) (drop (Z.to_nat a) l).

(** [l[i]] *)
Definition index {A} (l : list A) (i : Z) : result A :=
  let n := Z.of_nat (length l) in
  let k := if decide (i < 0) then i + n else i in
  if decide (0 ≤ k < n) then
    match l !! Z.to_nat k with Some x => Ok x | None => Raise IndexError end
  else Raise IndexError.

(** [enumerate(l)] *)
Definition enumerate {A} (l : list A) : list (nat * A) := imap pair l.

(** [{k: v for k, v in kvs}]: later pairs overwrite earlier ones. *)
Definition dict_of `{Countable K} {V} (kvs : list (K * V)) : gmap K V :=
  foldl (λ d kv, <[kv.1 := kv.2]> d) ∅ kvs.

(** [d[k]] *)
Definition getitem `{Countable K} {V} (d : gmap K V) (k : K) : result V :=
  match d !! k with Some v => Ok v | None => Raise KeyError end.

(** A character is its code point; a string is the list of its characters. *)
Abbreviation char := N (only parsing).
Abbreviation str := (list N) (only parsing).

Definition newline : char := 10%N.

(** [s.split('\n')] *)
Fixpoint split_lines (s : str) : list str :=
  match s with
  | [] => [[]]
  | c :: r =>
      if decide (c = newline) then [] :: split_lines r
      else match split_lines r with
           | h :: t => (c :: h) :: t
           | [] => [[c]]
           end
  end.

(** [''.join(ls)] *)
Definition join (ls : list str) : str := mjoin ls.

(** [sorted(list(set(text)))]: the iteration order of the set does not
    matter, [sorted] orders the code points increasingly. *)
Definition sorted_set (text : str) : list char :=
  merge_sort N.le (elements (list_to_set text : gset N)).

End Py.
Import Py.

(** ** PoemDataset *)

Record PoemDataset := {
  sequence_length : Z;
  poems : list str;
  char2idx : gmap N nat;
  idx2char : gmap nat N;
  data : list (list nat)
}.

(** [[self.char2idx[ch] for ch in s]] *)
Definition encode (c2i : gmap N nat) (s : str) : result (list nat) :=
  mapM (getitem c2i) s.

(** [idx2char[i]] for each code, as the sampler decodes its output. *)
Definition decode (i2c : gmap nat N) (codes : list nat) : result str :=
  mapM (getitem i2c) codes.

(** The inner loop of [preprocess] on one encoded poem:
    [for i in range(0, len(encoded_poem) - L): data.append(encoded_poem[i:i+L+1])] *)
Definition windows (L : Z) (encoded_poem : list nat) : list (list nat) :=
  (λ i, slice encoded_poem (Some i) (Some (i + L + 1)))
    <$> range 0 (Z.of_nat (length encoded_poem) - L).

(** The outer loop of [preprocess]: [data] is extended poem by poem. *)
Fixpoint index_poems (c2i : gmap N nat) (L : Z) (ps : list str)
    (data : list (list nat)) : result (list (list nat)) :=
  match ps with
  | [] => Ok data
  | poem :: rest =>
      encoded_poem ← encode c2i poem;
      index_poems c2i L rest (data ++ windows L encoded_poem)
  end.

(** [preprocess], on the lines [self.poems] and [self.sequence_length].  The
    vocabulary size it prints is [vocab_len] of the result. *)
Definition preprocess (L : Z) (ps : list str) : result PoemDataset :=
  let text := join ps in
  let chars := sorted_set text in
  let c2i : gmap N nat := dict_of (prod_swap <$> enumerate chars) in
  let i2c : gmap nat N := dict_of (enumerate chars) in
  d ← index_poems c2i L ps [];
  Ok {| sequence_length := L; poems := ps;
        char2idx := c2i; idx2char := i2c; data := d |}.

(** [PoemDataset(file_path, sequence_length)], on the text that
    [open(file_path).read()] returned. *)
Definition PoemDataset_init (contents : str) (L : Z) : result PoemDataset :=
  preprocess L (split_lines contents).

(** [len(dataset)] *)
Definition len (ds : PoemDataset) : nat := length (data ds).

(** The vocabulary size [V = len(dataset.char2idx)]. *)
Definition vocab_len (ds : PoemDataset) : nat := size (char2idx ds).

(** [dataset[index]]: the pair [(data[index][:-1], data[index][1:])]. *)
Definition getitem_sample (ds : PoemDataset) (i : Z)
    : result (list nat * list nat) :=
  w ← index (data ds) i;
  Ok (slice w None (Some (-1)), slice w (Some 1) None).

(** The value of the local variable [chars] of [preprocess]: the sorted
    distinct characters of the corpus. *)
Definition chars_of (ps : list str) : list N := sorted_set (join ps).

(** The number of samples the specification gives a line: max(0, N − L). *)
Definition line_samples (L : Z) (poem : str) : nat :=
  Z.to_nat (Z.max 0 (Z.of_nat (length poem) - L)).

(** ** Tensors and the layer library *)

(** A dense tensor: its shape and its elements in row-major order. *)
Record Tensor (S : Type) := { tshape : list nat; tdata : list S }.
Global Arguments tshape {S} t.
Global Arguments tdata {S} t.

Definition numel (shape : list nat) : nat := foldr Nat.mul 1%nat shape.

Definition has_shape {S} (t : Tensor S) (shape : list nat) : Prop :=
  tshape t = shape ∧ length (tdata t) = numel shape.

(** A batch of integer codes [x] (one row per batch element) has shape
    [[B, T]]. *)
Definition rect (x : list (list nat)) (B T : nat) : Prop :=
  length x = B ∧ Forall (λ r, length r = T) x.

Definition codes_below (V : nat) (x : list (list nat)) : Prop :=
  Forall (Forall (λ c, (c < V)%nat)) x.

(** The pre-built layers, losses, optimiser and random source of the tensor
    library.  Their numerics are not part of the notebook; the notebook's
    code is written against this interface. *)
Class TorchLib := {
  Score : Type;                         (* a float *)
  zero : Score;                         (* 0.0 *)
  score_le : Score → Score → bool;      (* comparison used by argmax *)
  Weights : Type;                       (* all parameters of a model *)
  Grad : Type;
  OptState : Type;
  RNG : Type;
  (* nn.Embedding(V, E)(x) *)
  Embedding : nat → nat → Weights → list (list nat) →
              torch_error + Tensor Score;
  (* nn.LSTM(E, H, num_layers, batch_first=True)(x, (h, c)) *)
  LSTM : nat → nat → nat → Weights → Tensor Score →
         Tensor Score * Tensor Score →
         torch_error + (Tensor Score * (Tensor Score * Tensor Score));
  (* nn.Linear(H, V)(x) *)
  Linear : nat → nat → Weights → Tensor Score → torch_error + Tensor Score;
  (* nn.CrossEntropyLoss()(input, target) *)
  CrossEntropyLoss : Tensor Score → list (list nat) → torch_error + Score;
  (* loss.backward(): the gradient of the loss of this forward pass *)
  backward : Weights → list (list nat) → Tensor Score * Tensor Score →
             list (list nat) → Grad;
  (* optimizer.step() of Adam *)
  Adam_step : OptState → Weights → Grad → OptState * Weights;
  (* torch.randperm(n), as the shuffling DataLoader draws it *)
  randperm : RNG → nat → list nat * RNG
}.

(** What the notebook relies on from the library: the documented shape
    contracts of the layers on non-empty batches (a layer accepts inputs of
    the right shape and returns the documented shape; the recurrent layer
    rejects a state whose shape is not [[num_layers, batch, hidden]]), a
    total preorder on scores (no NaN), and that the shuffle is a
    permutation of the indices. *)
Class TorchLaws `{TorchLib} : Prop := {
  score_le_total x y : score_le x y = true ∨ score_le y x = true;
  score_le_trans x y z :
    score_le x y = true → score_le y z = true → score_le x z = true;
  Embedding_ok V E w x B T :
    (0 < B)%nat → rect x B T → codes_below V x →
    ∃ t, Embedding V E w x = inr t;
  Embedding_shape V E w x B T t :
    (0 < B)%nat → rect x B T → Embedding V E w x = inr t →
    has_shape t [B; T; E];
  LSTM_ok E H nl w x h c B T :
    (0 < B)%nat → (0 < T)%nat → has_shape x [B; T; E] →
    has_shape h [nl; B; H] → has_shape c [nl; B; H] →
    ∃ r, LSTM E H nl w x (h, c) = inr r;
  LSTM_shape E H nl w x hc B T out h' c' :
    tshape x = [B; T; E] → LSTM E H nl w x hc = inr (out, (h', c')) →
    has_shape out [B; T; H] ∧ has_shape h' [nl; B; H] ∧ has_shape c' [nl; B; H];
  LSTM_hidden_mismatch E H nl w x h c B T :
    (0 < B)%nat → (0 < T)%nat → has_shape x [B; T; E] →
    tshape h ≠ [nl; B; H] ∨ tshape c ≠ [nl; B; H] →
    LSTM E H nl w x (h, c) = inl ShapeMismatch;
  Linear_ok H V w x B T :
    has_shape x [B; T; H] → ∃ t, Linear H V w x = inr t;
  Linear_shape H V w x B T t :
    tshape x = [B; T; H] → Linear H V w x = inr t → has_shape t [B; T; V];
  CrossEntropyLoss_ok x targets B V T :
    (0 < B)%nat → (0 < T)%nat → has_shape x [B; V; T] →
    rect targets B T → codes_below V targets →
    ∃ l, CrossEntropyLoss x targets = inr l;
  randperm_perm g n : (randperm g n).1 ≡ₚ seq 0 n
}.

Abbreviation FTensor := (Tensor Score).

Section Notebook.
Context `{TorchLib}.

Definition Hidden : Type := FTensor * FTensor.

(** [torch.zeros] of the given shape *)
Definition zeros (shape : list nat) : FTensor :=
  {| tshape := shape; tdata := replicate (numel shape) zero |}.

(** The index of the first maximal element, as [torch.argmax] returns it. *)
Fixpoint argmax_from (best : nat) (sbest : Score) (j : nat) (v : list Score)
    : nat :=
  match v with
  | [] => best
  | s :: r =>
      if score_le s sbest then argmax_from best sbest (S j) r
      else argmax_from j s (S j) r
  end.

Definition argmax (v : list Score) : nat :=
  match v with
  | [] => 0%nat
  | s :: r => argmax_from 0 s 1 r
  end.

(** The [k]-th row of length [V] of a row-major tensor. *)
Definition row (t : FTensor) (V k : nat) : list Score :=
  take V (drop (k * V) (tdata t)).

(** [torch.argmax(t, dim=2)] of a tensor of shape [[B, T, V]]. *)
Definition argmax_dim2 (t : FTensor) : result (list (list nat)) :=
  match tshape t with
  | [B; T; V] =>
      if decide (V = 0%nat) then Raise IndexError
      else Ok ((λ b, (λ p, argmax (row t V (b * T + p))) <$> seq 0 T)
                 <$> seq 0 B)
  | _ => Raise IndexError
  end.

(** [ix[:, -1]] *)
Definition select_last (ix : list (list nat)) : result (list nat) :=
  mapM (λ r, index r (-1)) ix.

(** [v.item()] *)
Definition item (v : list nat) : result nat :=
  match v with
  | [i] => Ok i
  | _ => Raise ValueError
  end.

(** [v.unsqueeze(0)] *)
Definition unsqueeze0 (v : list nat) : list (list nat) := [v].

(** [t.transpose(1, 2)] of a tensor of shape [[B, T, V]]. *)
Definition transpose12 (t : FTensor) : FTensor :=
  match tshape t with
  | [B; T; V] =>
      {| tshape := [B; V; T];
         tdata := (λ k, let b := (k / (V * T))%nat in
                        let v := ((k / T) `mod` V)%nat in
                        let p := (k `mod` T)%nat in
                        nth ((b * T + p) * V + v) (tdata t) zero)
                    <$> seq 0 (B * (V * T)) |}
  | _ => t
  end.

(** ** LSTMModel *)

Record LSTMModel := {
  hidden_dim : nat;
  embed : nat * nat;           (* nn.Embedding(vocab_size, embed_dim) *)
  lstm : nat * nat * nat;      (* nn.LSTM(embed_dim, hidden_dim, num_layers) *)
  fc : nat * nat;              (* nn.Linear(hidden_dim, vocab_size) *)
  weights : Weights
}.

(** [LSTMModel(vocab_size, embed_dim, hidden_dim, num_layers)], with the
    freshly initialised parameters [w].  The library builds a recurrent
    layer only for [num_layers ≥ 1]: the constructor is the notebook's for
    those layer counts. *)
Definition LSTMModel_init (vocab_size embed_dim hidden_dim num_layers : nat)
    (w : Weights) : LSTMModel :=
  {| hidden_dim := hidden_dim;
     embed := (vocab_size, embed_dim);
     lstm := (embed_dim, hidden_dim, num_layers);
     fc := (hidden_dim, vocab_size);
     weights := w |}.

Definition forward (m : LSTMModel) (x : list (list nat)) (hidden : Hidden)
    : result (FTensor * Hidden) :=
  embeds ← of_torch (Embedding (embed m).1 (embed m).2 (weights m) x);
  '(lstm_out, hidden') ←
     of_torch (LSTM (lstm m).1.1 (lstm m).1.2 (lstm m).2 (weights m)
                    embeds hidden);
  out ← of_torch (Linear (fc m).1 (fc m).2 (weights m) lstm_out);
  Ok (out, hidden').

Definition init_hidden (m : LSTMModel) (batch_size : nat) : Hidden :=
  (zeros [1%nat; batch_size; hidden_dim m],
   zeros [1%nat; batch_size; hidden_dim m]).

(** ** The notebook's global state *)

Inductive output :=
  | Text (s : str)                       (* print(predicted_text) *)
  | EpochLoss (epoch : nat) (loss : Score).

Record World := {
  dataset : PoemDataset;
  model : LSTMModel;
  optimizer : OptState;
  steps : nat;            (* number of optimizer.step() calls so far *)
  rng : RNG;
  stdout : list output
}.

Definition M (A : Type) : Type := World → result A * World.

Global Instance M_ret : MRet M := λ A a w, (Ok a, w).
Global Instance M_bind : MBind M := λ A B f c w,
  match c w with
  | (Ok a, w') => f a w'
  | (Raise e, w') => (Raise e, w')
  end.

Definition lift {A} (r : result A) : M A := λ w, (r, w).
Definition gets {A} (f : World → A) : M A := λ w, (Ok (f w), w).
Definition modify (f : World → World) : M unit := λ w, (Ok (), f w).
Definition add_output (o : output) (w : World) : World :=
  {| dataset := dataset w; model := model w; optimizer := optimizer w;
     steps := steps w; rng := rng w; stdout := stdout w ++ [o] |}.
Definition print (o : output) : M unit := modify (add_output o).

(** ** predict *)

Fixpoint predict_loop (i2c : gmap nat N) (m : LSTMModel) (n : nat)
    (start_input : list (list nat)) (hidden : Hidden) (predicted_text : str)
    : result str :=
  match n with
  | O => Ok predicted_text
  | S n' =>
      '(output, hidden') ← forward m start_input hidden;
      am ← argmax_dim2 output;
      predicted_index ← select_last am;
      i ← item predicted_index;
      ch ← getitem i2c i;
      predict_loop i2c m n' (unsqueeze0 predicted_index) hidden'
                   (predicted_text ++ [ch])
  end.

Definition predict (m : LSTMModel) (start_text : str) (prediction_len : Z)
    : M unit :=
  ds ← gets dataset;
  let hidden := init_hidden m 1 in
  codes ← lift (encode (char2idx ds) start_text);
  predicted_text ←
    lift (predict_loop (idx2char ds) m
            (length (range 0 prediction_len)) [codes] hidden start_text);
  print (Text predicted_text).

(** The sampler as the specification words it, for comparison with
    [predict_loop]: [n] times, run the model forward on the current input
    with the carried state, take the score vector at the last position,
    choose a code of maximal score, decode it, and go on with that code
    alone as the next input. *)
Definition last_scores (out : FTensor) : option (list Score) :=
  match tshape out with
  | [1%nat; T; V] =>
      if decide (0 < T)%nat then Some (row out V (T - 1)) else None
  | _ => None
  end.

Definition greedy_choice (scores : list Score) (code : nat) : Prop :=
  ∃ sc, scores !! code = Some sc
        ∧ ∀ j s, scores !! j = Some s → score_le s sc = true.

Inductive sampler_run (m : LSTMModel) (i2c : gmap nat N)
    : nat → list nat → Hidden → list N → Prop :=
  | sampler_done input hidden : sampler_run m i2c 0 input hidden []
  | sampler_step n input hidden out hidden' scores code ch rest :
      forward m [input] hidden = Ok (out, hidden') →
      last_scores out = Some scores →
      greedy_choice scores code →
      i2c !! code = Some ch →
      sampler_run m i2c n [code] hidden' rest →
      sampler_run m i2c (S n) input hidden (ch :: rest).

(** ** DataLoader(dataset, batch_size=32, shuffle=True) *)

(** The index batches of one pass: consecutive runs of [batch_size]
    shuffled indices, the last one possibly shorter (drop_last is off). *)
Definition batches_of (batch_size : nat) (idxs : list nat)
    : list (list nat) :=
  (λ k, take batch_size (drop (k * batch_size) idxs))
    <$> seq 0 ((length idxs + batch_size - 1) / batch_size)%nat.

(** The default collate function: [torch.stack] on inputs and on targets. *)
Definition collate (samples : list (list nat * list nat))
    : result (list (list nat) * list (list nat)) :=
  match samples with
  | [] => Raise IndexError
  | (s0, t0) :: _ =>
      if decide (Forall (λ st, length st.1 = length s0
                               ∧ length st.2 = length t0) samples)
      then Ok (fst <$> samples, snd <$> samples)
      else Raise (TorchError ShapeMismatch)
  end.

Definition fetch (ds : PoemDataset) (idxs : list nat)
    : result (list (list nat) * list (list nat)) :=
  samples ← mapM (λ i, getitem_sample ds (Z.of_nat i)) idxs;
  collate samples.

Definition set_rng (g : RNG) (w : World) : World :=
  {| dataset := dataset w; model := model w; optimizer := optimizer w;
     steps := steps w; rng := g; stdout := stdout w |}.

(** The loader's iterator draws one permutation of the indices. *)
Definition draw_perm (n : nat) : M (list nat) := λ w,
  (Ok (randperm (rng w) n).1, set_rng (randperm (rng w) n).2 w).

(** ** The training loop *)

(** [loss.backward(); optimizer.step()] *)
Definition apply_step (g : Grad) (w : World) : World :=
  let ow := Adam_step (optimizer w) (weights (model w)) g in
  {| dataset := dataset w;
     model := {| hidden_dim := hidden_dim (model w);
                 embed := embed (model w); lstm := lstm (model w);
                 fc := fc (model w); weights := ow.2 |};
     optimizer := ow.1; steps := S (steps w); rng := rng w;
     stdout := stdout w |}.

Definition optimizer_step (g : Grad) : M unit := modify (apply_step g).

(** The body of the inner loop, for each batch of the loader.  Detaching
    the state ([each.data]) keeps its values; [zero_grad] only clears the
    gradient buffers. *)
Fixpoint train_batches (batches : list (list nat)) (hidden : Hidden)
    (loss : option Score) : M (option Score) :=
  match batches with
  | [] => mret loss
  | idxs :: rest =>
      ds ← gets dataset;
      '(seq, targets) ← lift (fetch ds idxs);
      m ← gets model;
      '(output, hidden') ← lift (forward m seq hidden);
      l ← lift (of_torch (CrossEntropyLoss (transpose12 output) targets));
      optimizer_step (backward (weights m) seq hidden targets);;
      train_batches rest hidden' (Some l)
  end.

(** The seed of the per-epoch sample: the six characters of the notebook's
    string literal, as code points. *)
Definition epoch_seed : str := [26149; 27743; 33457; 26376; 22812; 65292]%N.

Definition batch_size : nat := 32.

(** One iteration of [for epoch in range(...)].  [loss] is the Python
    variable of that name: unbound ([None]) until a batch has run. *)
Definition train_epoch (epoch : nat) (loss : option Score)
    : M (option Score) :=
  m ← gets model;
  let hidden := init_hidden m batch_size in
  ds ← gets dataset;
  perm ← draw_perm (len ds);
  loss' ← train_batches (batches_of batch_size perm) hidden loss;
  l ← lift (match loss' with Some l => Ok l | None => Raise NameError end);
  print (EpochLoss (epoch + 1) l);;
  m' ← gets model;
  predict m' epoch_seed 6;;
  mret loss'.

Fixpoint train_epochs (epochs : list nat) (loss : option Score) : M unit :=
  match epochs with
  | [] => mret ()
  | epoch :: rest =>
      loss' ← train_epoch epoch loss;
      train_epochs rest loss'
  end.

(** The loop body over [range(E)], for the lemmas by induction on the
    epochs; the notebook's loop is [training_loop], with the [range(10)]
    of the source, which has no epoch count to set. *)
Definition train (E : Z) : M unit :=
  train_epochs (Z.to_nat <$> range 0 E) None.

Definition training_loop : M unit := train 10.



(** What the notebook's code keeps of the global state, for the statement
    of frame properties: the dataset and the sizes of the layers stay, the
    step count and the printed output only grow. *)
Definition extends (w w' : World) : Prop :=
  dataset w' = dataset w
  ∧ hidden_dim (model w') = hidden_dim (model w)
  ∧ embed (model w') = embed (model w)
  ∧ lstm (model w') = lstm (model w)
  ∧ fc (model w') = fc (model w)
  ∧ (steps w ≤ steps w')%nat
  ∧ (steps w' = steps w →
     weights (model w') = weights (model w) ∧ optimizer w' = optimizer w)
  ∧ stdout w `prefix_of` stdout w'.

End Notebook.

(** ** A small instance of the library

    Integer scores; the embedding of a code is the code itself, the
    recurrent layer copies it, and the projection scores highest the
    cyclic successor of the code.  The layers check their shapes the way
    the library's do. *)

Module Toy.

Definition embedding (V E : nat) (w : Z) (x : list (list nat))
    : torch_error + Tensor Z :=
  match x with
  | [] => inl OtherFailure
  | r0 :: _ =>
      if decide (Forall (λ r, length r = length r0) x) then
        if decide (codes_below V x) then
          inr {| tshape := [length x; length r0; E];
                 tdata := mjoin x ≫= λ c, replicate E (Z.of_nat c) |}
        else inl IndexOutOfRange
      else inl OtherFailure
  end.

Definition lstm_layer (E H nl : nat) (w : Z) (x : Tensor Z)
    (hc : Tensor Z * Tensor Z)
    : torch_error + (Tensor Z * (Tensor Z * Tensor Z)) :=
  match tshape x with
  | [B; T; E'] =>
      if decide (E' = E) then
        if decide (tshape hc.1 = [nl; B; H] ∧ tshape hc.2 = [nl; B; H]) then
          if decide (T = 0%nat) then inl OtherFailure
          else
            let st := {| tshape := [nl; B; H];
                         tdata := replicate (numel [nl; B; H]) w |} in
            inr ({| tshape := [B; T; H];
                    tdata := seq 0 (B * T) ≫= λ k,
                               replicate H (nth (k * E) (tdata x) 0) |},
                 (st, st))
        else inl ShapeMismatch
      else inl ShapeMismatch
  | _ => inl ShapeMismatch
  end.

Definition linear (H V : nat) (w : Z) (x : Tensor Z)
    : torch_error + Tensor Z :=
  match tshape x with
  | [B; T; H'] =>
      if decide (H' = H) then
        inr {| tshape := [B; T; V];
               tdata := seq 0 (B * T) ≫= λ k,
                 let c := Z.to_nat (nth (k * H) (tdata x) 0) in
                 (λ v, if decide (v = (S c `mod` V)%nat) then 1 else 0)
                   <$> seq 0 V |}
      else inl ShapeMismatch
  | _ => inl ShapeMismatch
  end.

Global Instance lib : TorchLib := {|
  Score := Z;
  zero := 0;
  score_le := Z.leb;
  Weights := Z;
  Grad := Z;
  OptState := nat;
  RNG := nat;
  Embedding := embedding;
  LSTM := lstm_layer;
  Linear := linear;
  CrossEntropyLoss := λ x targets, inr (Z.of_nat (length (tdata x)));
  backward := λ w x hc targets, 1;
  Adam_step := λ o w g, (S o, w - g);
  randperm := λ g n, (reverse (seq 0 n), S g)
|}.

(** The corpus of the worked example: the lines "abac" and "bc". *)
Definition abac : str := [97; 98; 97; 99]%N.
Definition bc : str := [98; 99]%N.

Definition the_dataset (L : Z) (ps : list str) : PoemDataset :=
  match preprocess L ps with
  | Ok ds => ds
  | Raise _ => {| sequence_length := L; poems := ps; char2idx := ∅;
                  idx2char := ∅; data := [] |}
  end.

Definition world (ds : PoemDataset) (num_layers : nat) : World :=
  {| dataset := ds;
     model := LSTMModel_init (vocab_len ds) 4 3 num_layers 0;
     optimizer := 0%nat; steps := 0; rng := 0%nat; stdout := [] |}.

End Toy.

(** Two one-line corpora of 34 characters, which give 32 samples at
    [L = 2]: one over the characters of the per-epoch seed, one over
    "abac". *)
Module ToyPoems.

Definition spring : str :=
  epoch_seed ++ epoch_seed ++ epoch_seed ++ epoch_seed ++ epoch_seed
  ++ take 4 epoch_seed.

Definition abc : str :=
  Toy.abac ++ Toy.abac ++ Toy.abac ++ Toy.abac ++ Toy.abac ++ Toy.abac
  ++ Toy.abac ++ Toy.abac ++ Toy.bc.

End ToyPoems.

(** * Properties *)

(** ** The result monad *)

Section mapM_result.
Context {A B : Type} (f : A → result B).

Lemma mapM_Ok (l : list A) (k : list B) :
  mapM f l = Ok k ↔ Forall2 (λ x y, f x = Ok y) l k.
Proof.
  revert k. induction l as [|x l IH]; intros k; simpl.
  - split; [intros [= <-]; constructor | by inversion 1].
  - destruct (f x) as [y|e] eqn:Hx; simpl.
    + destruct (mapM f l) as [k'|e] eqn:Hl; simpl.
      * split.
        -- intros [= <-]. constructor; [done | by apply IH].
        -- inversion 1 as [|???? Hy Hk]; simplify_eq.
           apply IH in Hk. unfold mret, result_ret. congruence.
      * split; [done|].
        inversion 1 as [|???? Hy Hk]; subst. by apply IH in Hk.
    + split; [done|]. inversion 1; congruence.
Qed.

Lemma mapM_is_Ok (l : list A) :
  Forall (λ x, ∃ y, f x = Ok y) l → ∃ k, mapM f l = Ok k.
Proof.
  induction 1 as [|x l [y Hy] _ [k Hk]]; simpl; [by eexists|].
  rewrite Hy; simpl. rewrite Hk; simpl. by eexists.
Qed.

Lemma mapM_Raise (l : list A) (e : exception) :
  mapM f l = Raise e → ∃ x, x ∈ l ∧ f x = Raise e.
Proof.
  induction l as [|x l IH]; simpl; [done|].
  destruct (f x) as [y|e'] eqn:Hx; simpl.
  - destruct (mapM f l) as [k'|e'] eqn:Hl; simpl; [done|].
    intros [= ->]. destruct IH as (x' & ? & ?); [done|].
    exists x'. split; [by right | done].
  - intros [= ->]. exists x. split; [by left | done].
Qed.

Lemma mapM_Ok_length (l : list A) (k : list B) :
  mapM f l = Ok k → length k = length l.
Proof. intros Hk%mapM_Ok. symmetry. by eapply Forall2_length. Qed.
End mapM_result.

(** ** Dictionaries built by comprehension *)

Section dict_of.
Context `{Countable K} {V : Type}.
Implicit Types kvs : list (K * V).

Lemma dict_of_snoc kvs k v :
  dict_of (kvs ++ [(k, v)]) = <[k := v]> (dict_of kvs).
Proof. unfold dict_of. by rewrite foldl_snoc. Qed.

Lemma dict_of_lookup_None kvs k :
  k ∉ kvs.*1 → dict_of kvs !! k = None.
Proof.
  induction kvs as [|[k' v'] kvs IH] using rev_ind; [done|].
  rewrite fmap_app, not_elem_of_app, dict_of_snoc. simpl.
  intros [? Hk]. rewrite lookup_insert_ne; [auto|].
  intros ->. apply Hk. by left.
Qed.

Lemma dict_of_lookup kvs k v :
  NoDup kvs.*1 → dict_of kvs !! k = Some v ↔ (k, v) ∈ kvs.
Proof.
  induction kvs as [|[k' v'] kvs IH] using rev_ind.
  { intros _. unfold dict_of; simpl. rewrite lookup_empty.
    split; [done | by inversion 1]. }
  rewrite fmap_app, dict_of_snoc. simpl.
  intros (Hnd & Hk' & _)%NoDup_app.
  rewrite elem_of_app, list_elem_of_singleton.
  destruct (decide (k' = k)) as [->|Hne].
  - rewrite lookup_insert_eq. split.
    + intros [= ->]. by right.
    + intros [Hin| [= ->]]; [|done].
      exfalso. apply (Hk' k); [|by left].
      apply list_elem_of_fmap. by exists (k, v).
  - rewrite lookup_insert_ne by done. rewrite IH by done.
    split; [by left|]. intros [?|?]; [done | congruence].
Qed.

Lemma dict_of_dom kvs : dom (dict_of kvs) = list_to_set kvs.*1.
Proof.
  induction kvs as [|[k v] kvs IH] using rev_ind.
  { unfold dict_of; simpl. by rewrite dom_empty_L. }
  rewrite dict_of_snoc, dom_insert_L, IH, fmap_app, list_to_set_app_L.
  simpl. rewrite (right_id_L ∅ (∪)). apply (comm_L (∪)).
Qed.
End dict_of.

(** ** The sorted character set *)

Lemma sorted_set_Permutation (text : str) :
  sorted_set text ≡ₚ elements (list_to_set text : gset N).
Proof. apply merge_sort_Permutation. Qed.

Lemma elem_of_sorted_set (text : str) (c : N) :
  c ∈ sorted_set text ↔ c ∈ text.
Proof.
  rewrite sorted_set_Permutation, elem_of_elements.
  apply elem_of_list_to_set.
Qed.

Lemma NoDup_sorted_set (text : str) : NoDup (sorted_set text).
Proof. rewrite sorted_set_Permutation. apply NoDup_elements. Qed.





(** ** enumerate *)

Lemma elem_of_enumerate {A} (l : list A) (i : nat) (x : A) :
  (i, x) ∈ enumerate l ↔ l !! i = Some x.
Proof.
  unfold enumerate. rewrite elem_of_lookup_imap. split.
  - intros (j & y & [= -> ->] & ?). done.
  - intros ?. by exists i, x.
Qed.

Lemma enumerate_fst {A} (l : list A) : (enumerate l).*1 = seq 0 (length l).
Proof.
  unfold enumerate. rewrite fmap_imap.
  rewrite (imap_ext _ (λ i _, i)) by done.
  by rewrite imap_seq_0, list_fmap_id.
Qed.

Lemma enumerate_snd {A} (l : list A) : (enumerate l).*2 = l.
Proof.
  unfold enumerate. rewrite fmap_imap.
  rewrite (imap_ext _ (λ _ x, x)) by done.
  rewrite <-(list_fmap_id l) at 2. apply imap_const.
Qed.

Lemma enumerate_swap_fst {A} (l : list A) :
  (prod_swap <$> enumerate l).*1 = l.
Proof.
  rewrite <-list_fmap_compose.
  transitivity ((enumerate l).*2); [|apply enumerate_snd].
  apply list_fmap_ext. by intros ? [].
Qed.

(** ** The vocabulary *)

Lemma index_poems_total (c2i : gmap N nat) (L : Z) (ps : list str) d :
  Forall (Forall (λ c, is_Some (c2i !! c))) ps →
  ∃ d', index_poems c2i L ps d = Ok d'.
Proof.
  intros Hps. revert d. induction Hps as [|poem ps Hpoem _ IH]; intros d.
  { by eexists. }
  simpl. destruct (mapM_is_Ok (getitem c2i) poem) as [enc Henc].
  { eapply Forall_impl; [exact Hpoem|]. intros c [i Hi].
    exists i. unfold getitem. by rewrite Hi. }
  unfold encode. rewrite Henc. simpl. apply IH.
Qed.

Lemma char2idx_lookup_chars (chars : list N) (c : N) (i : nat) :
  NoDup chars →
  dict_of (prod_swap <$> enumerate chars) !! c = Some i ↔ chars !! i = Some c.
Proof.
  intros Hnd. rewrite dict_of_lookup by (by rewrite enumerate_swap_fst).
  rewrite list_elem_of_fmap. split.
  - intros ([j c'] & [= -> ->] & Hin). by apply elem_of_enumerate.
  - intros Hi. exists (i, c). split; [done|]. by apply elem_of_enumerate.
Qed.

Lemma idx2char_lookup_chars (chars : list N) (c : N) (i : nat) :
  dict_of (enumerate chars) !! i = Some c ↔ chars !! i = Some c.
Proof.
  rewrite dict_of_lookup by (rewrite enumerate_fst; apply NoDup_seq).
  apply elem_of_enumerate.
Qed.

Lemma preprocess_inv (L : Z) (ps : list str) (ds : PoemDataset) :
  preprocess L ps = Ok ds →
  sequence_length ds = L ∧ poems ds = ps
  ∧ char2idx ds = dict_of (prod_swap <$> enumerate (chars_of ps))
  ∧ idx2char ds = dict_of (enumerate (chars_of ps))
  ∧ index_poems (char2idx ds) L ps [] = Ok (data ds).
Proof.
  unfold preprocess, chars_of.
  destruct (index_poems _ L ps []) as [d|e] eqn:Hd; simpl; [|done].
  intros [= <-]. simpl. done.
Qed.

Lemma char2idx_lookup (L : Z) (ps : list str) ds (c : N) (i : nat) :
  preprocess L ps = Ok ds →
  char2idx ds !! c = Some i ↔ chars_of ps !! i = Some c.
Proof.
  intros (_ & _ & -> & _)%preprocess_inv.
  apply char2idx_lookup_chars, NoDup_sorted_set.
Qed.

Lemma idx2char_lookup (L : Z) (ps : list str) ds (c : N) (i : nat) :
  preprocess L ps = Ok ds →
  idx2char ds !! i = Some c ↔ chars_of ps !! i = Some c.
Proof.
  intros (_ & _ & _ & -> & _)%preprocess_inv. apply idx2char_lookup_chars.
Qed.

Lemma char2idx_is_Some (L : Z) (ps : list str) ds (c : N) :
  preprocess L ps = Ok ds → is_Some (char2idx ds !! c) ↔ c ∈ join ps.
Proof.
  intros Hds. unfold chars_of. rewrite <-elem_of_sorted_set.
  rewrite list_elem_of_lookup. unfold is_Some.
  by setoid_rewrite (char2idx_lookup L ps ds c _ Hds).
Qed.

Lemma preprocess_total (L : Z) (ps : list str) :
  ∃ ds, preprocess L ps = Ok ds.
Proof.
  unfold preprocess.
  destruct (index_poems_total
    (dict_of (prod_swap <$> enumerate (sorted_set (join ps)))) L ps [])
    as [d Hd].
  - rewrite Forall_forall. intros poem Hpoem.
    rewrite Forall_forall. intros c Hc.
    assert (c ∈ sorted_set (join ps)) as [i Hi]%list_elem_of_lookup.
    { apply elem_of_sorted_set. unfold join. apply list_elem_of_join.
      by exists poem. }
    exists i. apply char2idx_lookup_chars; [apply NoDup_sorted_set | done].
  - cbv zeta. eexists. rewrite Hd. simpl. reflexivity.
Qed.

Lemma vocab_len_chars (L : Z) (ps : list str) ds :
  preprocess L ps = Ok ds → vocab_len ds = length (chars_of ps).
Proof.
  intros Hds. unfold vocab_len.
  rewrite <-size_dom.
  destruct (preprocess_inv _ _ _ Hds) as (_ & _ & -> & _).
  rewrite dict_of_dom, enumerate_swap_fst.
  rewrite size_list_to_set; [done | apply NoDup_sorted_set].
Qed.

(** ** Slices and indexing *)

Lemma slice_take_drop {A} (l : list A) (a b : Z) :
  0 ≤ a → 0 ≤ b →
  slice l (Some a) (Some b)
  = take (Z.to_nat b - Z.to_nat a) (drop (Z.to_nat a) l).
Proof.
  intros Ha Hb. unfold slice, slice_bound.
  rewrite !decide_False by lia.
  destruct (decide (a ≤ Z.of_nat (length l))) as [Hal|Hal].
  - rewrite (Z.min_l a) by lia.
    destruct (decide (b ≤ Z.of_nat (length l))) as [Hbl|Hbl].
    + rewrite (Z.min_l b) by lia. f_equal. lia.
    + rewrite (Z.min_r b) by lia.
      rewrite !take_ge; [done|rewrite length_drop; lia..].
  - rewrite !(drop_ge l (Z.to_nat a)) by lia.
    rewrite (drop_ge l) by lia. by rewrite !take_nil.
Qed.

Lemma slice_init {A} (w : list A) :
  slice w None (Some (-1)) = take (length w - 1) w.
Proof.
  unfold slice, slice_bound. rewrite decide_True by lia. simpl.
  f_equal. lia.
Qed.

Lemma slice_tail {A} (w : list A) : slice w (Some 1) None = drop 1 w.
Proof.
  unfold slice, slice_bound. rewrite decide_False by lia.
  destruct w as [|x w]; [done|].
  rewrite Z.min_l by (simpl; lia). change (Z.to_nat 1) with 1%nat.
  apply take_ge. rewrite length_drop. simpl. lia.
Qed.

Lemma index_lookup {A} (l : list A) (n : nat) (x : A) :
  l !! n = Some x → index l (Z.of_nat n) = Ok x.
Proof.
  intros Hn. pose proof (lookup_lt_Some _ _ _ Hn).
  unfold index. cbv zeta. rewrite (decide_False (P := Z.of_nat n < 0)) by lia.
  rewrite decide_True by lia. by rewrite Nat2Z.id, Hn.
Qed.

(** ** The windowed indexer *)

Lemma windows_length (L : Z) (codes : list nat) :
  length (windows L codes)
  = Z.to_nat (Z.max 0 (Z.of_nat (length codes) - L)).
Proof. unfold windows, range. rewrite length_fmap, length_seqZ. lia. Qed.

Lemma windows_lookup (L : Z) (codes : list nat) (i : nat) :
  Z.of_nat i < Z.of_nat (length codes) - L →
  windows L codes !! i
  = Some (slice codes (Some (Z.of_nat i)) (Some (Z.of_nat i + L + 1))).
Proof.
  intros Hi. unfold windows, range.
  rewrite list_lookup_fmap, lookup_seqZ_lt by lia. done.
Qed.

(** A window that fits in the line: its two halves. *)
Lemma window_halves (L : Z) (codes : list nat) (i : nat) :
  0 ≤ L → Z.of_nat i < Z.of_nat (length codes) - L →
  let w := slice codes (Some (Z.of_nat i)) (Some (Z.of_nat i + L + 1)) in
  length w = S (Z.to_nat L)
  ∧ slice w None (Some (-1))
    = slice codes (Some (Z.of_nat i)) (Some (Z.of_nat i + L))
  ∧ slice w (Some 1) None
    = slice codes (Some (Z.of_nat i + 1)) (Some (Z.of_nat i + L + 1))
  ∧ ∃ next, codes !! (i + Z.to_nat L)%nat = Some next
      ∧ w = slice w None (Some (-1)) ++ [next].
Proof.
  intros HL Hi w. subst w.
  rewrite slice_init, slice_tail, !slice_take_drop by lia.
  replace (Z.to_nat (Z.of_nat i + L + 1) - Z.to_nat (Z.of_nat i))%nat
    with (S (Z.to_nat L)) by lia.
  replace (Z.to_nat (Z.of_nat i + L) - Z.to_nat (Z.of_nat i))%nat
    with (Z.to_nat L) by lia.
  replace (Z.to_nat (Z.of_nat i + L + 1) - Z.to_nat (Z.of_nat i + 1))%nat
    with (Z.to_nat L) by lia.
  replace (Z.to_nat (Z.of_nat i + 1)) with (i + 1)%nat by lia.
  rewrite Nat2Z.id.
  assert (length (take (S (Z.to_nat L)) (drop i codes)) = S (Z.to_nat L))
    as Hlen by (rewrite length_take, length_drop; lia).
  rewrite Hlen. replace (S (Z.to_nat L) - 1)%nat with (Z.to_nat L) by lia.
  destruct (lookup_lt_is_Some_2 codes (i + Z.to_nat L)) as [next Hnext];
    [lia|].
  assert (take (Z.to_nat L) (take (S (Z.to_nat L)) (drop i codes))
          = take (Z.to_nat L) (drop i codes)) as Htt.
  { rewrite take_take. f_equal. lia. }
  split_and!; [done|done| |].
  - rewrite <-drop_drop. by rewrite (take_drop_commute (drop i codes) _ 1).
  - exists next. split; [done|]. rewrite Htt.
    apply take_S_r. by rewrite lookup_drop.
Qed.

Lemma index_poems_Ok (c2i : gmap N nat) (L : Z) (ps : list (list N)) d d' :
  index_poems c2i L ps d = Ok d' →
  ∃ encs, Forall2 (λ poem codes, encode c2i poem = Ok codes) ps encs
    ∧ d' = d ++ mjoin (windows L <$> encs).
Proof.
  revert d. induction ps as [|poem ps IH]; intros d; simpl.
  - intros [= <-]. exists []. split; [constructor|]. by rewrite app_nil_r.
  - destruct (encode c2i poem) as [codes|e] eqn:Hc; simpl; [|done].
    intros (encs & Hencs & ->)%IH. exists (codes :: encs).
    split; [by constructor|]. by rewrite <-app_assoc.
Qed.

Lemma encode_length (c2i : gmap N nat) (s : list N) codes :
  encode c2i s = Ok codes → length codes = length s.
Proof. apply mapM_Ok_length. Qed.

Lemma windows_line_samples (c2i : gmap N nat) (L : Z) (s : list N) codes :
  encode c2i s = Ok codes → length (windows L codes) = line_samples L s.
Proof.
  intros Hc%encode_length. rewrite windows_length. unfold line_samples.
  by rewrite Hc.
Qed.

Lemma windows_lengths (c2i : gmap N nat) (L : Z) (ps : list (list N)) encs :
  Forall2 (λ poem codes, encode c2i poem = Ok codes) ps encs →
  length <$> (windows L <$> encs) = line_samples L <$> ps.
Proof.
  induction 1 as [|poem codes ps encs Hc _ IH]; [done|].
  rewrite !fmap_cons, IH. f_equal. by eapply windows_line_samples.
Qed.

(** C1. For a sequence length [L ≥ 0] and any corpus, the indexer succeeds;
    the dataset's length is the sum over the lines of max(0, N − L); the
    samples of line [j] follow those of the earlier lines, and its [i]-th
    sample, for [i] in [0, N − L), is the pair
    [(codes[i : i+L], codes[i+1 : i+L+1])], whose target is its input with
    the next code of the line appended and the first code dropped.  A line
    shorter than [L + 1] has no sample. *)
Theorem indexer_samples (L : Z) (ps : list (list N)) :
  0 ≤ L →
  ∃ ds, preprocess L ps = Ok ds
    ∧ len ds = sum_list (line_samples L <$> ps)
    ∧ ∀ (j : nat) (poem : list N), ps !! j = Some poem →
        ∃ codes, encode (char2idx ds) poem = Ok codes
          ∧ length codes = length poem
          ∧ (Z.of_nat (length poem) < L + 1 → line_samples L poem = 0%nat)
          ∧ ∀ i : nat, (i < line_samples L poem)%nat →
              ∃ input target next,
                getitem_sample ds
                  (Z.of_nat (sum_list (line_samples L <$> take j ps) + i))
                  = Ok (input, target)
                ∧ input = slice codes (Some (Z.of_nat i))
                                      (Some (Z.of_nat i + L))
                ∧ target = slice codes (Some (Z.of_nat i + 1))
                                       (Some (Z.of_nat i + L + 1))
                ∧ codes !! (i + Z.to_nat L)%nat = Some next
                ∧ target = drop 1 (input ++ [next])
                ∧ length input = Z.to_nat L ∧ length target = Z.to_nat L.
Proof.
  intros HL. destruct (preprocess_total L ps) as [ds Hds]. exists ds.
  destruct (preprocess_inv _ _ _ Hds) as (_ & _ & _ & _ & Hdata).
  apply index_poems_Ok in Hdata as (encs & Hencs & Hdata).
  simpl in Hdata.
  split; [done|]. split.
  { unfold len. rewrite Hdata, length_join.
    by rewrite (windows_lengths _ _ _ _ Hencs). }
  intros j poem Hj.
  destruct (Forall2_lookup_l _ _ _ _ _ Hencs Hj) as (codes & Hcj & Hcodes).
  pose proof (encode_length _ _ _ Hcodes) as Hlen.
  exists codes. split_and!; [done|done|unfold line_samples; lia|].
  intros i Hi.
  assert (Z.of_nat i < Z.of_nat (length codes) - L) as Hi'
    by (unfold line_samples in Hi; lia).
  destruct (window_halves L codes i HL Hi') as (Hw & Hinit & Htail & next & Hnext & Hsnoc).
  set (w := slice codes (Some (Z.of_nat i)) (Some (Z.of_nat i + L + 1))) in *.
  assert (data ds !! (sum_list (line_samples L <$> take j ps) + i)%nat
          = Some w) as Hlookup.
  { rewrite Hdata. apply join_lookup_Some.
    exists j, (windows L codes), i. split_and!.
    - by rewrite list_lookup_fmap, Hcj.
    - by apply windows_lookup.
    - rewrite <-fmap_take.
      by rewrite (windows_lengths (char2idx ds) L (take j ps) (take j encs))
        by (by apply Forall2_take). }
  exists (slice w None (Some (-1))), (slice w (Some 1) None), next.
  split_and!; try done.
  - unfold getitem_sample. by rewrite (index_lookup _ _ _ Hlookup).
  - rewrite <-Hsnoc. apply slice_tail.
  - rewrite slice_init, length_take. lia.
  - rewrite slice_tail, length_drop. lia.
Qed.

Lemma indexer_samples_witness :
  ∃ ds, preprocess 2 [Toy.abac; Toy.bc] = Ok ds ∧ len ds = 2%nat.
Proof.
  destruct (indexer_samples 2 [Toy.abac; Toy.bc]) as (ds & Hds & Hlen & _).
  - lia.
  - exists ds. split; [exact Hds | exact Hlen].
Defined.

(** The worked example of the specification: the lines "abac" and "bc"
    with [L = 2] give the two samples ([0,1],[1,0]) and ([1,0],[0,2]). *)
Example indexer_abac_bc :
  (ds ← preprocess 2 [Toy.abac; Toy.bc];
   s0 ← getitem_sample ds 0; s1 ← getitem_sample ds 1;
   Ok (len ds, encode (char2idx ds) Toy.abac, s0, s1))
  = Ok (2, Ok [0; 1; 0; 2], ([0; 1], [1; 0]), ([1; 0], [0; 2]))%nat.
Proof. vm_compute. reflexivity. Qed.

(** Why [L] must be a length: with [L = -1] a line of three codes gives
    four empty windows, not the slices of the line. *)
Example indexer_negative_length :
  windows (-1) [0; 1; 2]%nat = [[]; []; []; []]
  ∧ slice [0; 1; 2]%nat (Some 0) (Some (0 + -1)) = [0; 1]%nat.
Proof. split; reflexivity. Qed.

(** ** Encoding and decoding *)

Lemma getitem_Some `{Countable K} {V} (d : gmap K V) (k : K) (v : V) :
  d !! k = Some v → getitem d k = Ok v.
Proof. unfold getitem. by intros ->. Qed.

Lemma getitem_None `{Countable K} {V} (d : gmap K V) (k : K) :
  d !! k = None → getitem d k = Raise KeyError.
Proof. unfold getitem. by intros ->. Qed.

Lemma encode_decode (c2i : gmap N nat) (i2c : gmap nat N) s codes :
  (∀ c i, c2i !! c = Some i → i2c !! i = Some c) →
  encode c2i s = Ok codes → decode i2c codes = Ok s.
Proof.
  intros Hinv Henc%mapM_Ok. apply mapM_Ok.
  induction Henc as [|c i s codes Hc _ IH]; constructor; [|done].
  unfold getitem in *. destruct (c2i !! c) as [i'|] eqn:Hi; [|done].
  injection Hc as ->. by rewrite (Hinv _ _ Hi).
Qed.

Lemma decode_encode (c2i : gmap N nat) (i2c : gmap nat N) s codes :
  (∀ c i, i2c !! i = Some c → c2i !! c = Some i) →
  decode i2c codes = Ok s → encode c2i s = Ok codes.
Proof.
  intros Hinv Hdec%mapM_Ok. apply mapM_Ok.
  induction Hdec as [|i c codes s Hi _ IH]; constructor; [|done].
  unfold getitem in *. destruct (i2c !! i) as [c'|] eqn:Hc; [|done].
  injection Hi as ->. by rewrite (Hinv _ _ Hc).
Qed.

Lemma encode_in_vocabulary (c2i : gmap N nat) (s : list N) :
  Forall (λ c, is_Some (c2i !! c)) s → ∃ codes, encode c2i s = Ok codes.
Proof.
  intros Hs. apply mapM_is_Ok. eapply Forall_impl; [exact Hs|].
  intros c [i Hi]. exists i. unfold getitem. by rewrite Hi.
Qed.

Lemma encode_KeyError (c2i : gmap N nat) (s : list N) :
  Exists (λ c, c2i !! c = None) s → encode c2i s = Raise KeyError.
Proof.
  induction 1 as [c s Hc|c s _ IH]; unfold encode in *; simpl.
  - by rewrite (getitem_None _ _ Hc).
  - destruct (c2i !! c) as [i|] eqn:Hc.
    + rewrite (getitem_Some _ _ _ Hc). simpl. by rewrite IH.
    + by rewrite (getitem_None _ _ Hc).
Qed.

Lemma encode_Raise (c2i : gmap N nat) (s : list N) e :
  encode c2i s = Raise e → e = KeyError ∧ Exists (λ c, c2i !! c = None) s.
Proof.
  intros (c & Hc & He)%mapM_Raise. unfold getitem in He.
  destruct (c2i !! c) eqn:Hl; [done|]. injection He as <-.
  split; [done|]. apply Exists_exists. by exists c.
Qed.

(** C2. The two mappings built from a corpus are inverse to each other;
    the characters with a code are exactly the characters of the corpus,
    the codes are exactly the numbers below [V], where [V] is the number
    of distinct characters; and a string of characters of the corpus
    encodes to codes that decode to the string. *)
Theorem vocabulary_roundtrip (L : Z) (ps : list (list N)) (ds : PoemDataset)
    (s : list N) :
  preprocess L ps = Ok ds →
  Forall (λ c, c ∈ join ps) s →
  (∀ c i, char2idx ds !! c = Some i ↔ idx2char ds !! i = Some c)
  ∧ (∀ c, c ∈ dom (char2idx ds) ↔ c ∈ join ps)
  ∧ (∀ i, i ∈ dom (idx2char ds) ↔ (i < vocab_len ds)%nat)
  ∧ vocab_len ds = size (list_to_set (join ps) : gset N)
  ∧ size (idx2char ds) = vocab_len ds
  ∧ (∃ codes, encode (char2idx ds) s = Ok codes
              ∧ decode (idx2char ds) codes = Ok s)
  ∧ (∀ codes s', decode (idx2char ds) codes = Ok s' →
                 encode (char2idx ds) s' = Ok codes).
Proof.
  intros Hds Hs.
  assert (∀ c i, char2idx ds !! c = Some i ↔ idx2char ds !! i = Some c)
    as Hinv.
  { intros c i. by rewrite (char2idx_lookup L ps), (idx2char_lookup L ps). }
  assert (∀ i, i ∈ dom (idx2char ds) ↔ (i < vocab_len ds)%nat) as Hdom.
  { intros i. rewrite elem_of_dom, (vocab_len_chars L ps) by done.
    rewrite <-lookup_lt_is_Some. unfold is_Some.
    by setoid_rewrite (idx2char_lookup L ps ds _ i Hds). }
  split_and!; [done| |done| | | |].
  - intros c. rewrite elem_of_dom. by apply (char2idx_is_Some L).
  - rewrite (vocab_len_chars L ps) by done. unfold chars_of.
    rewrite sorted_set_Permutation. done.
  - rewrite <-size_dom.
    replace (dom (idx2char ds)) with (list_to_set (seq 0 (vocab_len ds)) : gset nat).
    + rewrite size_list_to_set by apply NoDup_seq. apply length_seq.
    + apply set_eq. intros i. rewrite Hdom, elem_of_list_to_set, elem_of_seq. lia.
  - destruct (encode_in_vocabulary (char2idx ds) s) as [codes Hcodes].
    { eapply Forall_impl; [exact Hs|]. intros c Hc.
      by apply (char2idx_is_Some L ps). }
    exists codes. split; [done|].
    eapply encode_decode; [|done]. intros c i. apply Hinv.
  - intros codes s'. apply decode_encode. intros c i. apply Hinv.
Qed.

Lemma vocabulary_roundtrip_witness :
  ∃ codes, encode (char2idx (Toy.the_dataset 2 [Toy.abac; Toy.bc]))
             [99; 97; 98]%N = Ok codes
    ∧ decode (idx2char (Toy.the_dataset 2 [Toy.abac; Toy.bc])) codes
      = Ok [99; 97; 98]%N.
Proof.
  refine (proj1 (proj2 (proj2 (proj2 (proj2 (proj2
    (vocabulary_roundtrip 2 [Toy.abac; Toy.bc]
       (Toy.the_dataset 2 [Toy.abac; Toy.bc]) [99; 97; 98]%N _ _))))))).
  - vm_compute. reflexivity.
  - apply (bool_decide_unpack _). vm_compute. exact I.
Defined.



(** C6 (as the code has it).  A corpus with no character, such as the
    empty file, whose split is the single empty line, is accepted: the
    builder returns empty mappings, [V = 0] and, for [L ≥ 0], no sample. *)
Theorem empty_corpus_accepted (contents : list N) (L : Z) :
  0 ≤ L →
  join (split_lines contents) = [] →
  ∃ ds, PoemDataset_init contents L = Ok ds
    ∧ char2idx ds = ∅ ∧ idx2char ds = ∅ ∧ vocab_len ds = 0%nat
    ∧ data ds = [].
Proof.
  intros HL Hempty. unfold PoemDataset_init, preprocess. cbv zeta.
  rewrite Hempty.
  assert (sorted_set [] = []) as -> by (vm_compute; reflexivity).
  assert (∀ d, index_poems (dict_of (prod_swap <$> enumerate []))
                 L (split_lines contents) d = Ok d) as Hidx.
  { apply join_nil in Hempty. induction Hempty as [|poem ps -> _ IH];
      intros d; [done|].
    simpl. unfold windows, range. rewrite seqZ_nil by (simpl; lia).
    simpl. rewrite app_nil_r. apply IH. }
  rewrite Hidx. simpl. eexists. split_and!; done.
Qed.

Lemma empty_corpus_accepted_witness :
  ∃ ds, PoemDataset_init [] 50 = Ok ds
    ∧ char2idx ds = ∅ ∧ idx2char ds = ∅ ∧ vocab_len ds = 0%nat
    ∧ data ds = [].
Proof.
  apply (empty_corpus_accepted [] 50).
  - lia.
  - reflexivity.
Defined.

(** C6 (as stated) fails: the empty file is split into one empty line and
    the constructor raises nothing. *)
Lemma empty_corpus_not_rejected :
  split_lines [] = [[]] ∧ ¬ ∃ e, PoemDataset_init [] 50 = Raise e.
Proof.
  split; [reflexivity|]. intros [e He]. vm_compute in He. discriminate.
Qed.

(** ** The small instance satisfies the library's contracts *)

Lemma length_bind_replicate {A B} (l : list A) (n : nat) (f : A → B) :
  length (l ≫= λ x, replicate n (f x)) = (length l * n)%nat.
Proof.
  induction l as [|x l IH]; [done|]. csimpl.
  rewrite length_app, length_replicate, IH. lia.
Qed.

Lemma length_bind_fmap_seq {A B} (l : list A) (n : nat) (f : A → nat → B) :
  length (l ≫= λ x, f x <$> seq 0 n) = (length l * n)%nat.
Proof.
  induction l as [|x l IH]; [done|]. csimpl.
  rewrite length_app, length_fmap, length_seq, IH. lia.
Qed.

Lemma length_join_rect (x : list (list nat)) (B T : nat) :
  rect x B T → length (mjoin x) = (B * T)%nat.
Proof.
  intros [<- HT]. induction HT as [|r x Hr _ IH]; [done|].
  csimpl. rewrite length_app, IH, Hr. lia.
Qed.

Lemma toy_laws : @TorchLaws Toy.lib.
Proof.
  split.
  - intros x y. simpl. rewrite !Z.leb_le. lia.
  - intros x y z. simpl. rewrite !Z.leb_le. lia.
  - (* Embedding_ok *)
    intros V E w x B T HB [HxB HxT] Hc. simpl. unfold Toy.embedding.
    destruct x as [|r0 x]; [simpl in *; lia|].
    rewrite decide_True.
    + rewrite decide_True by done. by eexists.
    + pose proof (Forall_inv HxT) as Hr0. simpl in Hr0.
      eapply Forall_impl; [exact HxT|]. simpl. intros; congruence.
  - (* Embedding_shape *)
    intros V E w x B T t HB [HxB HxT]. simpl. unfold Toy.embedding.
    destruct x as [|r0 x]; [done|].
    repeat case_decide; try done. intros [= <-].
    pose proof (Forall_inv HxT) as Hr0. simpl in Hr0.
    split; [by rewrite <-HxB, <-Hr0|]. simpl tdata.
    rewrite length_bind_replicate.
    change (r0 ++ mjoin x) with (mjoin (r0 :: x)).
    rewrite (length_join_rect (r0 :: x) B T) by done. simpl. lia.
  - (* LSTM_ok *)
    intros E H nl w x h c B T _ HT [Hx _] [Hh _] [Hc _]. simpl in *.
    unfold Toy.lstm_layer. eexists. rewrite Hx. simpl. rewrite Hh, Hc.
    rewrite decide_True by done. rewrite decide_True by done.
    rewrite decide_False by lia. reflexivity.
  - (* LSTM_shape *)
    intros E H nl w x hc B T out h' c' Hx. simpl in *.
    unfold Toy.lstm_layer. rewrite Hx.
    repeat case_decide; try done. intros [= <- <- <-].
    split_and!; split; simpl; try done.
    + rewrite length_bind_replicate, length_seq. lia.
    + by rewrite length_replicate.
    + by rewrite length_replicate.
  - (* LSTM_hidden_mismatch *)
    intros E H nl w x h c B T HB HT [Hx _] Hne. simpl in *.
    unfold Toy.lstm_layer. rewrite Hx. simpl.
    rewrite decide_True by done. rewrite decide_False; [done|].
    intros [? ?]. by destruct Hne.
  - (* Linear_ok *)
    intros H V w x B T [Hx _]. simpl in *. unfold Toy.linear. eexists.
    rewrite Hx. rewrite decide_True by done. reflexivity.
  - (* Linear_shape *)
    intros H V w x B T t Hx. simpl in *. unfold Toy.linear. rewrite Hx.
    case_decide; [|done]. intros [= <-]. split; simpl; [done|].
    rewrite (length_bind_fmap_seq _ V (λ k v, _)), length_seq. lia.
  - (* CrossEntropyLoss_ok *)
    intros. simpl. by eexists.
  - (* randperm_perm *)
    intros g n. simpl. apply reverse_Permutation.
Qed.

(** ** The model *)

Section model_facts.
Context `{!TorchLib}.

Lemma has_shape_zeros (shape : list nat) : has_shape (zeros shape) shape.
Proof. split; [done|]. simpl. apply length_replicate. Qed.

Lemma forward_Raise (m : LSTMModel) x hidden e :
  forward m x hidden = Raise e → ∃ te, e = TorchError te.
Proof.
  unfold forward.
  destruct (Embedding _ _ _ _) as [te|t]; simpl; [intros [= <-]; by eexists|].
  destruct (LSTM _ _ _ _ _ _) as [te|[lstm_out hidden']]; simpl;
    [intros [= <-]; by eexists|].
  destruct (Linear _ _ _ _) as [te|out]; simpl;
    [intros [= <-]; by eexists|done].
Qed.

(** C5 at two recurrent layers: whatever [num_layers] the model was built
    with, [init_hidden] returns zero tensors of shape
    [[1, batch_size, hidden_dim]], which is not [[2, batch_size, hidden_dim]]. *)
Theorem init_hidden_ignores_num_layers (V E Hd : nat) (w : Weights)
    (b : nat) :
  let m := LSTMModel_init V E Hd 2 w in
  lstm m = (E, Hd, 2%nat)
  ∧ init_hidden m b = (zeros [1%nat; b; Hd], zeros [1%nat; b; Hd])
  ∧ tshape (init_hidden m b).1 = [1%nat; b; Hd]
  ∧ tshape (init_hidden m b).2 = [1%nat; b; Hd]
  ∧ tshape (init_hidden m b).1 ≠ [2%nat; b; Hd]
  ∧ Forall (λ s, s = zero) (tdata (init_hidden m b).1 ++ tdata (init_hidden m b).2).
Proof.
  simpl. split_and!; try done.
  apply Forall_app. split; apply Forall_replicate; done.
Qed.

(** ** predict and the global state *)

Lemma predict_run (m : LSTMModel) (seed : list N) (n : Z) (w : World) :
  predict m seed n w
  = match encode (char2idx (dataset w)) seed with
    | Ok codes =>
        match predict_loop (idx2char (dataset w)) m (Z.to_nat n) [codes]
                (init_hidden m 1) seed with
        | Ok text => (Ok (), add_output (Text text) w)
        | Raise e => (Raise e, w)
        end
    | Raise e => (Raise e, w)
    end.
Proof.
  unfold predict, range. rewrite length_seqZ, Z.sub_0_r.
  unfold mbind, M_bind, gets, lift, print, modify. simpl.
  destruct (encode _ seed) as [codes|e]; [|done].
  by destruct (predict_loop _ _ _ _ _ _) as [text|e].
Qed.

End model_facts.

(** ** Greedy choice *)

Section sampler_facts.
Context `{!TorchLib, !TorchLaws}.

Lemma score_le_refl (x : Score) : score_le x x = true.
Proof. by destruct (score_le_total x x). Qed.

Lemma argmax_from_spec (pre v : list Score) (best : nat) (sbest : Score) :
  pre !! best = Some sbest →
  (∀ j s, pre !! j = Some s → score_le s sbest = true) →
  ∃ sr, (pre ++ v) !! argmax_from best sbest (length pre) v = Some sr
        ∧ ∀ j s, (pre ++ v) !! j = Some s → score_le s sr = true.
Proof.
  revert pre best sbest. induction v as [|s v IH]; intros pre best sbest Hb Hle.
  { simpl. rewrite app_nil_r. by exists sbest. }
  simpl. rewrite (cons_middle s pre v), app_assoc.
  replace (S (length pre)) with (length (pre ++ [s]))
    by (rewrite length_app; simpl; lia).
  destruct (score_le s sbest) eqn:Hs.
  - apply IH.
    + by apply lookup_app_l_Some.
    + intros j s' [Hj|[_ Hj]]%lookup_app_Some; [by eapply Hle|].
      destruct (j - length pre)%nat; simpl in Hj; [|done].
      by injection Hj as <-.
  - assert (score_le sbest s = true) as Hs'
      by (destruct (score_le_total s sbest); congruence).
    apply IH.
    + rewrite lookup_app_r by done. by rewrite Nat.sub_diag.
    + intros j s' [Hj|[_ Hj]]%lookup_app_Some.
      * eapply score_le_trans; [by eapply Hle | done].
      * destruct (j - length pre)%nat; simpl in Hj; [|done].
        injection Hj as <-. apply score_le_refl.
Qed.

Lemma argmax_greedy (v : list Score) :
  v ≠ [] → greedy_choice v (argmax v).
Proof.
  destruct v as [|s v]; [done|]. intros _. unfold greedy_choice.
  apply (argmax_from_spec [s] v 0 s); [done|].
  intros [|j] s'; simpl; [|done]. intros [= <-]. apply score_le_refl.
Qed.

Lemma argmax_lt (v : list Score) (V : nat) :
  (0 < V)%nat → (length v ≤ V)%nat → (argmax v < V)%nat.
Proof.
  intros HV Hlen. destruct v as [|s v]; [done|].
  assert (∀ v best sbest j, (best < j)%nat →
            (argmax_from best sbest j v < j + length v)%nat) as Haux.
  { clear. induction v as [|s v IH]; intros best sbest j Hb; simpl; [lia|].
    destruct (score_le s sbest).
    - specialize (IH best sbest (S j)). lia.
    - specialize (IH j s (S j)). lia. }
  simpl in *. specialize (Haux v 0%nat s 1%nat). lia.
Qed.

Lemma row_length (t : FTensor) (B T V k : nat) :
  has_shape t [B; T; V] → (k < B * T)%nat → length (row t V k) = V.
Proof.
  intros [_ Hlen] Hk. unfold row. rewrite length_take, length_drop, Hlen.
  simpl. nia.
Qed.

Lemma row_length_le (t : FTensor) (V k : nat) : (length (row t V k) ≤ V)%nat.
Proof. unfold row. rewrite length_take. lia. Qed.

(** The three steps [argmax(dim=2)], [[:, -1]] and [.item()] on the scores
    of a single sequence. *)
Lemma greedy_step (out : FTensor) (T V : nat) :
  has_shape out [1%nat; T; V] → (0 < T)%nat → (0 < V)%nat →
  let code := argmax (row out V (T - 1)) in
  (∃ am, argmax_dim2 out = Ok am ∧ select_last am = Ok [code])
  ∧ last_scores out = Some (row out V (T - 1))
  ∧ (code < V)%nat
  ∧ greedy_choice (row out V (T - 1)) code.
Proof.
  intros Hout HT HV code.
  pose proof (row_length out 1 T V (T - 1) Hout ltac:(lia)) as Hrow.
  destruct Hout as [Hshape Hlen].
  unfold argmax_dim2, last_scores. rewrite Hshape.
  rewrite decide_False by lia. rewrite decide_True by lia.
  split_and!; [|done| |].
  - eexists. split; [reflexivity|].
    simpl. unfold index. cbv zeta. rewrite length_fmap, length_seq.
    rewrite (decide_True (P := -1 < 0)) by lia.
    rewrite decide_True by lia.
    rewrite list_lookup_fmap.
    replace (Z.to_nat (-1 + Z.of_nat T)) with (T - 1)%nat by lia.
    rewrite lookup_seq_lt by lia. simpl. done.
  - apply argmax_lt; [done|]. lia.
  - apply argmax_greedy. intros Hnil. rewrite Hnil in Hrow. simpl in Hrow. lia.
Qed.

(** ** forward *)

Lemma forward_ok (V E Hd nl : nat) (w : Weights) x h c (B T : nat) :
  (0 < B)%nat → (0 < T)%nat → rect x B T → codes_below V x →
  has_shape h [nl; B; Hd] → has_shape c [nl; B; Hd] →
  ∃ out h' c',
    forward (LSTMModel_init V E Hd nl w) x (h, c) = Ok (out, (h', c'))
    ∧ has_shape out [B; T; V]
    ∧ has_shape h' [nl; B; Hd] ∧ has_shape c' [nl; B; Hd].
Proof.
  intros HB HT Hx Hcodes Hh Hc. unfold forward. simpl.
  destruct (Embedding_ok V E w x B T HB Hx Hcodes) as [t Ht].
  pose proof (Embedding_shape _ _ _ _ _ _ _ HB Hx Ht) as Hts.
  destruct (LSTM_ok E Hd nl w t h c B T HB HT Hts Hh Hc)
    as [[lo [h' c']] Hl].
  destruct (LSTM_shape _ _ _ _ _ _ _ _ _ _ _ (proj1 Hts) Hl)
    as (Hlo & Hh' & Hc').
  destruct (Linear_ok Hd V w lo B T Hlo) as [o Ho].
  pose proof (Linear_shape _ _ _ _ _ _ _ (proj1 Hlo) Ho) as Hos.
  rewrite Ht. simpl. rewrite Hl. simpl. rewrite Ho. simpl.
  by exists o, h', c'.
Qed.

Lemma forward_hidden_mismatch (V E Hd nl : nat) (w : Weights) x h c
    (B T : nat) :
  (0 < B)%nat → (0 < T)%nat → rect x B T → codes_below V x →
  tshape h ≠ [nl; B; Hd] ∨ tshape c ≠ [nl; B; Hd] →
  forward (LSTMModel_init V E Hd nl w) x (h, c)
  = Raise (TorchError ShapeMismatch).
Proof.
  intros HB HT Hx Hcodes Hne. unfold forward. simpl.
  destruct (Embedding_ok V E w x B T HB Hx Hcodes) as [t Ht].
  pose proof (Embedding_shape _ _ _ _ _ _ _ HB Hx Ht) as Hts.
  rewrite Ht. simpl.
  by rewrite (LSTM_hidden_mismatch E Hd nl w t h c B T HB HT Hts Hne).
Qed.

Lemma forward_shape (V E Hd nl : nat) (w : Weights) x hidden (B T : nat)
    out hidden' :
  (0 < B)%nat → rect x B T →
  forward (LSTMModel_init V E Hd nl w) x hidden = Ok (out, hidden') →
  has_shape out [B; T; V].
Proof.
  intros HB Hx. unfold forward. simpl.
  destruct (Embedding V E w x) as [te|t] eqn:Ht; simpl; [done|].
  pose proof (Embedding_shape _ _ _ _ _ _ _ HB Hx Ht) as Hts.
  destruct (LSTM E Hd nl w t hidden) as [te|[lo [h' c']]] eqn:Hl; simpl;
    [done|].
  destruct (LSTM_shape _ _ _ _ _ _ _ _ _ _ _ (proj1 Hts) Hl) as (Hlo & _).
  destruct (Linear Hd V w lo) as [te|o] eqn:Ho; simpl; [done|].
  intros [= <- <-]. by eapply Linear_shape; [exact (proj1 Hlo)|].
Qed.

(** ** The sampling loop *)

Lemma predict_loop_ok (i2c : gmap nat N) (V E Hd : nat) (w : Weights)
    (n : nat) :
  (∀ i, (i < V)%nat → is_Some (i2c !! i)) →
  ∀ input h c text,
    input ≠ [] → Forall (λ i, (i < V)%nat) input →
    has_shape h [1%nat; 1%nat; Hd] → has_shape c [1%nat; 1%nat; Hd] →
    ∃ gen,
      predict_loop i2c (LSTMModel_init V E Hd 1 w) n [input] (h, c) text
      = Ok (text ++ gen)
      ∧ length gen = n
      ∧ sampler_run (LSTMModel_init V E Hd 1 w) i2c n input (h, c) gen.
Proof.
  intros Hi2c. induction n as [|n IH]; intros input h c text Hne Hin Hh Hc.
  { exists []. simpl. rewrite app_nil_r. split_and!; [done..|constructor]. }
  assert (0 < length input)%nat as HT by (destruct input; [done|simpl; lia]).
  assert (0 < V)%nat as HV.
  { destruct input as [|i input]; [done|]. apply Forall_inv in Hin. lia. }
  destruct (forward_ok V E Hd 1 w [input] h c 1 (length input))
    as (out & h' & c' & Hfw & Hout & Hh' & Hc'); [lia|done| | |done|done|].
  { split; [done|]. by constructor. }
  { by constructor. }
  destruct (greedy_step out (length input) V Hout HT HV)
    as ((am & Ham & Hsel) & Hlast & Hlt & Hgreedy).
  remember (argmax (row out V (length input - 1))) as code eqn:Hcode.
  clear Hcode.
  destruct (Hi2c code Hlt) as [ch Hch].
  destruct (IH [code] h' c' (text ++ [ch])) as (gen & Hloop & Hlen & Hrun);
    [done|by constructor|done|done|].
  exists (ch :: gen). split_and!.
  - simpl. rewrite Hfw. simpl. rewrite Ham. simpl. rewrite Hsel. simpl.
    rewrite (getitem_Some _ _ _ Hch). simpl. unfold unsqueeze0.
    rewrite <-app_assoc in Hloop. exact Hloop.
  - simpl. by rewrite Hlen.
  - by eapply sampler_step.
Qed.

Lemma predict_loop_not_KeyError (i2c : gmap nat N) (V E Hd nl : nat)
    (w : Weights) (n : nat) :
  (∀ i, (i < V)%nat → is_Some (i2c !! i)) →
  ∀ input hidden text,
    predict_loop i2c (LSTMModel_init V E Hd nl w) n [input] hidden text
    ≠ Raise KeyError.
Proof.
  intros Hi2c. induction n as [|n IH]; intros input hidden text; [done|].
  simpl.
  destruct (forward _ [input] hidden) as [[out hidden']|e] eqn:Hfw; simpl.
  2:{ apply forward_Raise in Hfw as [te ->]. done. }
  apply (forward_shape _ _ _ _ _ _ _ 1 (length input)) in Hfw;
    [|lia|by split; [|constructor]].
  destruct (decide (0 < length input ∧ 0 < V)%nat) as [[HT HV]|Hdeg].
  - destruct (greedy_step out (length input) V Hfw HT HV)
      as ((am & Ham & Hsel) & _ & Hlt & _).
    rewrite Ham. simpl. rewrite Hsel. simpl.
    destruct (Hi2c _ Hlt) as [ch Hch].
    rewrite (getitem_Some _ _ _ Hch). simpl. apply IH.
  - destruct Hfw as [Hshape _]. unfold argmax_dim2. rewrite Hshape.
    case_decide; [done|]. simpl.
    assert (length input = 0%nat) as -> by lia. simpl.
    unfold index. simpl. done.
Qed.

End sampler_facts.

(** ** The sampler on a built vocabulary *)

Lemma encode_codes_below (L : Z) (ps : list (list N)) ds (s : list N) codes :
  preprocess L ps = Ok ds → encode (char2idx ds) s = Ok codes →
  Forall (λ i, (i < vocab_len ds)%nat) codes.
Proof.
  intros Hds Henc%mapM_Ok. rewrite (vocab_len_chars L ps) by done.
  induction Henc as [|c i s codes Hc _ IH]; constructor; [|done].
  unfold getitem in Hc. destruct (char2idx ds !! c) as [i'|] eqn:Hi; [|done].
  injection Hc as ->. apply (char2idx_lookup L ps) in Hi; [|done].
  by eapply lookup_lt_Some.
Qed.

Lemma idx2char_below (L : Z) (ps : list (list N)) ds (i : nat) :
  preprocess L ps = Ok ds → (i < vocab_len ds)%nat →
  is_Some (idx2char ds !! i).
Proof.
  intros Hds Hi. rewrite (vocab_len_chars L ps) in Hi by done.
  apply lookup_lt_is_Some in Hi as [c Hc]. exists c.
  by apply (idx2char_lookup L ps).
Qed.

Section sampler_theorems.
Context `{!TorchLib, !TorchLaws}.

(** C4 (as the code has it).  With a continuation length of 0 the sampler
    prints the seed.  With a seed that is not empty, a model of one
    recurrent layer built for the vocabulary and [n ≥ 0], it prints the
    seed followed by exactly [n] characters, produced by [n] rounds of:
    forward pass, score vector at the last position, a code of maximal
    score, its character; the next round's input is that code alone, with
    the state the forward pass returned. *)
Theorem sampler_greedy (L : Z) (ps : list (list N)) (ds : PoemDataset)
    (E Hd : nat) (wt : Weights) (m0 : LSTMModel) (seed : list N) (n : Z)
    (w : World) :
  preprocess L ps = Ok ds →
  dataset w = ds →
  Forall (λ c, c ∈ join ps) seed →
  predict m0 seed 0 w = (Ok (), add_output (Text seed) w)
  ∧ (seed ≠ [] → 0 ≤ n →
     let m := LSTMModel_init (vocab_len ds) E Hd 1 wt in
     ∃ codes gen,
       encode (char2idx ds) seed = Ok codes
       ∧ sampler_run m (idx2char ds) (Z.to_nat n) codes (init_hidden m 1) gen
       ∧ Z.of_nat (length gen) = n
       ∧ predict m seed n w = (Ok (), add_output (Text (seed ++ gen)) w)).
Proof.
  intros Hds Hw Hseed.
  destruct (encode_in_vocabulary (char2idx ds) seed) as [codes Hcodes].
  { eapply Forall_impl; [exact Hseed|]. intros c Hc.
    by apply (char2idx_is_Some L ps). }
  split.
  { rewrite predict_run, Hw, Hcodes. done. }
  intros Hne Hn m.
  pose proof (encode_codes_below _ _ _ _ _ Hds Hcodes) as Hbelow.
  pose proof (encode_length _ _ _ Hcodes) as Hlen.
  destruct (predict_loop_ok (idx2char ds) (vocab_len ds) E Hd wt (Z.to_nat n)
              (λ i, idx2char_below L ps ds i Hds)
              codes (zeros [1; 1; Hd]%nat) (zeros [1; 1; Hd]%nat) seed)
    as (gen & Hloop & Hgen & Hrun).
  - destruct codes, seed; simpl in *; done.
  - done.
  - apply has_shape_zeros.
  - apply has_shape_zeros.
  - subst m. exists codes, gen. split_and!; [done|exact Hrun|lia|].
    rewrite predict_run, Hw, Hcodes.
    change (init_hidden (LSTMModel_init (vocab_len ds) E Hd 1 wt) 1)
      with (zeros [1; 1; Hd]%nat, zeros [1; 1; Hd]%nat).
    by rewrite Hloop.
Qed.

(** C7. The sampler raises the lookup error exactly when the seed has a
    character without a code, that is a character that does not occur in
    the corpus; and encoding the lines of a corpus with the vocabulary
    built from it never fails, so that the dataset is always built. *)
Theorem sampler_lookup_error (L : Z) (ps : list (list N)) (ds : PoemDataset)
    (E Hd nl : nat) (wt : Weights) (seed : list N) (n : Z) (w : World) :
  preprocess L ps = Ok ds →
  dataset w = ds →
  ((predict (LSTMModel_init (vocab_len ds) E Hd nl wt) seed n w).1
     = Raise KeyError
   ↔ ∃ c, c ∈ seed ∧ char2idx ds !! c = None)
  ∧ (∀ c, char2idx ds !! c = None ↔ c ∉ join ps)
  ∧ (∀ poem, poem ∈ ps → ∃ codes, encode (char2idx ds) poem = Ok codes)
  ∧ (∀ L' ps', ∃ ds', preprocess L' ps' = Ok ds').
Proof.
  intros Hds Hw. split_and!.
  - rewrite predict_run, Hw.
    destruct (encode (char2idx ds) seed) as [codes|e] eqn:Hcodes; simpl.
    + split.
      * destruct (predict_loop _ _ _ _ _ _) as [text|e] eqn:Hloop; [done|].
        simpl. intros [= ->]. exfalso. revert Hloop.
        apply predict_loop_not_KeyError. intros i Hi.
        by apply (idx2char_below L ps).
      * intros (c & Hc & Hnone). exfalso.
        apply mapM_Ok in Hcodes.
        apply list_elem_of_lookup in Hc as [k Hk].
        destruct (Forall2_lookup_l _ _ _ _ _ Hcodes Hk) as (i & _ & Hi).
        unfold getitem in Hi. by rewrite Hnone in Hi.
    + apply encode_Raise in Hcodes as [-> Hex]. split; [|done].
      intros _. apply Exists_exists in Hex as (c & ? & ?). by exists c.
  - intros c. rewrite <-(char2idx_is_Some L ps ds c Hds).
    rewrite eq_None_not_Some. done.
  - intros poem Hpoem. apply encode_in_vocabulary.
    rewrite Forall_forall. intros c Hc.
    apply (char2idx_is_Some L ps ds c Hds). apply list_elem_of_join.
    by exists poem.
  - intros L' ps'. apply preprocess_total.
Qed.

End sampler_theorems.

(** ** The samples of the dataset *)

Lemma slice_Forall {A} (P : A → Prop) (l : list A) lo hi :
  Forall P l → Forall P (slice l lo hi).
Proof. intros. unfold slice. by apply Forall_take, Forall_drop. Qed.

Lemma data_windows (L : Z) (ps : list (list N)) ds :
  0 ≤ L → preprocess L ps = Ok ds →
  Forall (λ w, length w = S (Z.to_nat L)
               ∧ Forall (λ i, (i < vocab_len ds)%nat) w) (data ds).
Proof.
  intros HL Hds. destruct (preprocess_inv _ _ _ Hds) as (_ & _ & _ & _ & Hdata).
  apply index_poems_Ok in Hdata as (encs & Hencs & ->). simpl.
  rewrite Forall_forall. intros w (l & Hw & Hl)%list_elem_of_join.
  apply list_elem_of_fmap in Hl as (codes & -> & Hcodes).
  apply list_elem_of_lookup in Hcodes as [j Hj].
  destruct (Forall2_lookup_r _ _ _ _ _ Hencs Hj) as (poem & _ & Henc).
  unfold windows in Hw. apply list_elem_of_fmap in Hw as (i & -> & Hi).
  unfold range in Hi. apply elem_of_seqZ in Hi.
  split.
  - pose proof (window_halves L codes (Z.to_nat i) HL) as Hh.
    rewrite Z2Nat.id in Hh by lia. apply Hh. lia.
  - apply slice_Forall. by eapply encode_codes_below.
Qed.

Lemma getitem_sample_ok (L : Z) (ps : list (list N)) ds (i : nat) :
  0 ≤ L → preprocess L ps = Ok ds → (i < len ds)%nat →
  ∃ s t, getitem_sample ds (Z.of_nat i) = Ok (s, t)
    ∧ length s = Z.to_nat L ∧ length t = Z.to_nat L
    ∧ Forall (λ c, (c < vocab_len ds)%nat) s
    ∧ Forall (λ c, (c < vocab_len ds)%nat) t.
Proof.
  intros HL Hds Hi.
  destruct (lookup_lt_is_Some_2 (data ds) i Hi) as [w Hw].
  pose proof (data_windows L ps ds HL Hds) as Hall.
  rewrite Forall_forall in Hall.
  destruct (Hall w) as [Hlen Hbelow]; [by eapply list_elem_of_lookup_2|].
  exists (slice w None (Some (-1))), (slice w (Some 1) None).
  split_and!.
  - unfold getitem_sample. by rewrite (index_lookup _ _ _ Hw).
  - rewrite slice_init, length_take. lia.
  - rewrite slice_tail, length_drop. lia.
  - by apply slice_Forall.
  - by apply slice_Forall.
Qed.

Lemma fetch_ok (L : Z) (ps : list (list N)) ds (idxs : list nat) :
  0 ≤ L → preprocess L ps = Ok ds →
  idxs ≠ [] → Forall (λ i, (i < len ds)%nat) idxs →
  ∃ seqs targets, fetch ds idxs = Ok (seqs, targets)
    ∧ rect seqs (length idxs) (Z.to_nat L)
    ∧ rect targets (length idxs) (Z.to_nat L)
    ∧ codes_below (vocab_len ds) seqs
    ∧ codes_below (vocab_len ds) targets.
Proof.
  intros HL Hds Hne Hidx.
  destruct (mapM_is_Ok (λ i, getitem_sample ds (Z.of_nat i)) idxs)
    as [samples Hs].
  { eapply Forall_impl; [exact Hidx|]. intros i Hi. simpl.
    destruct (getitem_sample_ok L ps ds i HL Hds Hi) as (s & t & -> & _).
    by eexists. }
  assert (Forall (λ st, length st.1 = Z.to_nat L ∧ length st.2 = Z.to_nat L
                        ∧ Forall (λ c, (c < vocab_len ds)%nat) st.1
                        ∧ Forall (λ c, (c < vocab_len ds)%nat) st.2)
            samples) as Hgood.
  { pose proof Hs as Hs2. apply mapM_Ok in Hs2. clear Hne Hs.
    induction Hs2 as [|i st idxs samples Hi _ IH]; [constructor|].
    apply Forall_cons in Hidx as [Hi0 Hidx]. constructor; [|by apply IH].
    destruct (getitem_sample_ok L ps ds i HL Hds Hi0) as (s & t & Heq & ?).
    rewrite Heq in Hi. by injection Hi as <-. }
  pose proof (mapM_Ok_length _ _ _ Hs) as Hlen.
  exists (samples.*1), (samples.*2).
  unfold fetch. rewrite Hs. simpl. unfold collate.
  destruct samples as [|[s0 t0] samples]; [by destruct idxs|].
  rewrite decide_True.
  2:{ pose proof (Forall_inv Hgood) as (H1 & H2 & _). simpl in *.
      eapply Forall_impl; [exact Hgood|]. simpl.
      intros st (? & ? & _). split; congruence. }
  split_and!; [done|..].
  - split; [by rewrite length_fmap|]. apply Forall_fmap.
    eapply Forall_impl; [exact Hgood|]. by intros ? (? & _).
  - split; [by rewrite length_fmap|]. apply Forall_fmap.
    eapply Forall_impl; [exact Hgood|]. by intros ? (_ & ? & _).
  - apply Forall_fmap. eapply Forall_impl; [exact Hgood|].
    by intros ? (_ & _ & ? & _).
  - apply Forall_fmap. eapply Forall_impl; [exact Hgood|].
    by intros ? (_ & _ & _ & ?).
Qed.

(** ** The batches of one pass *)

Lemma batches_of_partial (P : nat → Prop) (idxs : list nat) :
  (length idxs `mod` 32 ≠ 0)%nat → Forall P idxs →
  ∃ full last,
    batches_of 32 idxs = full ++ [last]
    ∧ length full = (length idxs / 32)%nat
    ∧ Forall (λ b, length b = 32%nat ∧ Forall P b) full
    ∧ last ≠ [] ∧ length last ≠ 32%nat ∧ Forall P last.
Proof.
  intros Hmod HP. unfold batches_of.
  remember (length idxs) as n eqn:Hn.
  pose proof (Nat.div_mod_eq n 32) as Hdm.
  pose proof (Nat.mod_upper_bound n 32 ltac:(lia)) as Hub.
  assert ((n + 32 - 1) / 32 = n / 32 + 1)%nat as Hq.
  { symmetry. apply (Nat.div_unique _ 32 _ (n `mod` 32 - 1)); lia. }
  exists ((λ k, take 32 (drop (k * 32) idxs)) <$> seq 0 (n / 32)),
         (take 32 (drop (n / 32 * 32) idxs)).
  split; [by rewrite Hq, seq_app, fmap_app|].
  assert (length (take 32 (drop (n / 32 * 32) idxs)) = (n `mod` 32)%nat)
    as Hlast by (rewrite length_take, length_drop, <-Hn; lia).
  split_and!.
  - by rewrite length_fmap, length_seq.
  - rewrite Forall_fmap, Forall_forall. intros k Hk%elem_of_seq. cbv beta.
    unfold compose.
    split; [|by apply Forall_take, Forall_drop].
    rewrite length_take, length_drop, <-Hn. lia.
  - intros Hnil. apply Hmod. by rewrite <-Hlast, Hnil.
  - lia.
  - by apply Forall_take, Forall_drop.
Qed.

(** ** One pass over the batches *)

Section training_facts.
Context `{!TorchLib, !TorchLaws}.

Lemma transpose12_shape (t : FTensor) (B T V : nat) :
  has_shape t [B; T; V] → has_shape (transpose12 t) [B; V; T].
Proof.
  intros [Hs Hl]. unfold transpose12. rewrite Hs. split; [done|].
  simpl. rewrite length_fmap, length_seq. lia.
Qed.

Lemma train_batches_cons (idxs : list nat) rest hidden loss (w : World) :
  train_batches (idxs :: rest) hidden loss w
  = match fetch (dataset w) idxs with
    | Raise e => (Raise e, w)
    | Ok (seq, targets) =>
        match forward (model w) seq hidden with
        | Raise e => (Raise e, w)
        | Ok (output, hidden') =>
            match CrossEntropyLoss (transpose12 output) targets with
            | inl te => (Raise (TorchError te), w)
            | inr l =>
                train_batches rest hidden' (Some l)
                  (apply_step
                     (backward (weights (model w)) seq hidden targets) w)
            end
        end
    end.
Proof.
  simpl. unfold mbind, M_bind, gets, lift, optimizer_step, modify. simpl.
  destruct (fetch (dataset w) idxs) as [[seq targets]|e]; [|done].
  destruct (forward (model w) seq hidden) as [[output hidden']|e]; [|done].
  by destruct (CrossEntropyLoss (transpose12 output) targets) as [te|l].
Qed.

(** The facts about the global state that the inner loop preserves. *)
Lemma apply_step_model (g : Grad) (w : World) V E Hd nl wt :
  model w = LSTMModel_init V E Hd nl wt →
  ∃ wt', model (apply_step g w) = LSTMModel_init V E Hd nl wt'.
Proof. intros Hm. unfold apply_step. simpl. rewrite Hm. by eexists. Qed.

(** A batch whose size is the batch size of the carried state. *)
Lemma train_batch_ok (L : Z) (ps : list (list N)) ds (E Hd : nat)
    (idxs : list nat) rest h c loss (w : World) wt :
  0 < L → preprocess L ps = Ok ds → dataset w = ds →
  model w = LSTMModel_init (vocab_len ds) E Hd 1 wt →
  idxs ≠ [] → Forall (λ i, (i < len ds)%nat) idxs →
  has_shape h [1%nat; length idxs; Hd] →
  has_shape c [1%nat; length idxs; Hd] →
  ∃ h' c' l w' wt',
    train_batches (idxs :: rest) (h, c) loss w
    = train_batches rest (h', c') (Some l) w'
    ∧ has_shape h' [1%nat; length idxs; Hd]
    ∧ has_shape c' [1%nat; length idxs; Hd]
    ∧ dataset w' = ds
    ∧ model w' = LSTMModel_init (vocab_len ds) E Hd 1 wt'
    ∧ steps w' = S (steps w) ∧ stdout w' = stdout w.
Proof.
  intros HL Hds Hw Hm Hne Hidx Hh Hc.
  destruct (fetch_ok L ps ds idxs ltac:(lia) Hds Hne Hidx)
    as (seqs & targets & Hfetch & Hseqs & Htargets & Hbs & Hbt).
  assert (0 < length idxs)%nat as HB by (destruct idxs; [done|simpl; lia]).
  destruct (forward_ok (vocab_len ds) E Hd 1 wt seqs h c
              (length idxs) (Z.to_nat L) HB ltac:(lia) Hseqs Hbs Hh Hc)
    as (out & h' & c' & Hfw & Hout & Hh' & Hc').
  destruct (CrossEntropyLoss_ok (transpose12 out) targets (length idxs)
              (vocab_len ds) (Z.to_nat L) HB ltac:(lia)
              (transpose12_shape _ _ _ _ Hout) Htargets Hbt) as [l Hl].
  destruct (apply_step_model
              (backward (weights (model w)) seqs (h, c) targets) w _ _ _ _ _ Hm)
    as [wt' Hm'].
  exists h', c', l,
    (apply_step (backward (weights (model w)) seqs (h, c) targets) w), wt'.
  split_and!; [|done|done|done|exact Hm'|done|done].
  rewrite train_batches_cons, Hw, Hfetch, Hm, Hfw, Hl. by rewrite <-Hm.
Qed.

(** A batch whose size is not the batch size of the carried state. *)
Lemma train_batch_mismatch (L : Z) (ps : list (list N)) ds (E Hd : nat)
    (idxs : list nat) rest h c loss (w : World) wt :
  0 < L → preprocess L ps = Ok ds → dataset w = ds →
  model w = LSTMModel_init (vocab_len ds) E Hd 1 wt →
  idxs ≠ [] → Forall (λ i, (i < len ds)%nat) idxs →
  tshape h ≠ [1%nat; length idxs; Hd] →
  train_batches (idxs :: rest) (h, c) loss w
  = (Raise (TorchError ShapeMismatch), w).
Proof.
  intros HL Hds Hw Hm Hne Hidx Hh.
  destruct (fetch_ok L ps ds idxs ltac:(lia) Hds Hne Hidx)
    as (seqs & targets & Hfetch & Hseqs & Htargets & Hbs & Hbt).
  assert (0 < length idxs)%nat as HB by (destruct idxs; [done|simpl; lia]).
  rewrite train_batches_cons, Hw, Hfetch, Hm.
  by rewrite (forward_hidden_mismatch (vocab_len ds) E Hd 1 wt seqs h c
                (length idxs) (Z.to_nat L) HB ltac:(lia) Hseqs Hbs
                (or_introl Hh)).
Qed.

Lemma train_full_batches (L : Z) (ps : list (list N)) ds (E Hd : nat)
    (full : list (list nat)) rest :
  0 < L → preprocess L ps = Ok ds →
  Forall (λ b, length b = 32%nat ∧ Forall (λ i, (i < len ds)%nat) b) full →
  ∀ h c loss (w : World) wt,
    dataset w = ds →
    model w = LSTMModel_init (vocab_len ds) E Hd 1 wt →
    has_shape h [1%nat; 32%nat; Hd] → has_shape c [1%nat; 32%nat; Hd] →
    ∃ h' c' loss' w' wt',
      train_batches (full ++ rest) (h, c) loss w
      = train_batches rest (h', c') loss' w'
      ∧ has_shape h' [1%nat; 32%nat; Hd]
      ∧ has_shape c' [1%nat; 32%nat; Hd]
      ∧ dataset w' = ds
      ∧ model w' = LSTMModel_init (vocab_len ds) E Hd 1 wt'
      ∧ steps w' = (steps w + length full)%nat ∧ stdout w' = stdout w.
Proof.
  intros HL Hds. induction 1 as [|b full [Hb Hidx] _ IH];
    intros h c loss w wt Hw Hm Hh Hc.
  { exists h, c, loss, w, wt. simpl. split_and!; try done; lia. }
  assert (b ≠ []) as Hne by (intros ->; done).
  rewrite <-Hb in Hh, Hc.
  destruct (train_batch_ok L ps ds E Hd b (full ++ rest) h c loss w wt
              HL Hds Hw Hm Hne Hidx Hh Hc)
    as (h1 & c1 & l1 & w1 & wt1 & Hstep & Hh1 & Hc1 & Hw1 & Hm1 & Hs1 & Ho1).
  rewrite Hb in Hh1, Hc1.
  destruct (IH h1 c1 (Some l1) w1 wt1 Hw1 Hm1 Hh1 Hc1)
    as (h' & c' & loss' & w' & wt' & Hrest & ? & ? & ? & ? & Hs' & Ho').
  exists h', c', loss', w', wt'.
  split_and!; try done.
  - rewrite <-app_comm_cons, Hstep. exact Hrest.
  - rewrite Hs', Hs1. simpl. lia.
  - by rewrite Ho', Ho1.
Qed.

Lemma train_epoch_Raise (epoch : nat) loss (w w' : World) e :
  train_batches (batches_of batch_size (randperm (rng w) (len (dataset w))).1)
    (init_hidden (model w) batch_size) loss
    (set_rng (randperm (rng w) (len (dataset w))).2 w)
  = (Raise e, w') →
  train_epoch epoch loss w = (Raise e, w').
Proof.
  intros Hb. unfold train_epoch, mbind, M_bind, gets, draw_perm. simpl.
  by rewrite Hb.
Qed.

Lemma train_epoch_Ok (epoch : nat) loss (w w' : World) r :
  train_epoch epoch loss w = (Ok r, w') →
  ∃ r1 w1,
    train_batches (batches_of batch_size (randperm (rng w) (len (dataset w))).1)
      (init_hidden (model w) batch_size) loss
      (set_rng (randperm (rng w) (len (dataset w))).2 w)
    = (Ok r1, w1).
Proof.
  unfold train_epoch, mbind, M_bind, gets, draw_perm. simpl.
  destruct (train_batches _ _ _ _) as [[r1|e] w1]; [by eexists _, _|done].
Qed.

End training_facts.

Section training_theorems.
Context `{!TorchLib, !TorchLaws}.

(** The sampler on the empty seed: the first round has no last position
    to read, whatever the library computes. *)
Lemma predict_empty_seed_raises (V E Hd nl : nat) (wt : Weights) (n : Z)
    (w : World) :
  0 < n →
  ∃ e, predict (LSTMModel_init V E Hd nl wt) [] n w = (Raise e, w).
Proof.
  intros Hn. rewrite predict_run. simpl.
  destruct (Z.to_nat n) as [|k] eqn:Hk; [lia|]. simpl.
  destruct (forward _ [[]] _) as [[out hidden']|e] eqn:Hfw; simpl;
    [|by eexists].
  apply (forward_shape _ _ _ _ _ _ _ 1 0) in Hfw;
    [|lia|by split; [|constructor]].
  destruct Hfw as [Hshape _]. unfold argmax_dim2. rewrite Hshape.
  case_decide; simpl; by eexists.
Qed.

(** C10. With a dataset whose length is not a multiple of 32, an epoch of
    the training loop takes one optimiser step for each full batch and
    then raises the library's shape error on the forward pass of the last,
    shorter batch: the recurrent state still has the batch size 32.  The
    whole loop fails in the same way, and an epoch that ends normally has
    a dataset length divisible by 32. *)
Theorem final_batch_shape_error (L : Z) (ps : list (list N))
    (ds : PoemDataset) (E Hd : nat) (wt : Weights) (w : World)
    (epoch : nat) (loss : option Score) :
  0 < L → preprocess L ps = Ok ds → dataset w = ds →
  model w = LSTMModel_init (vocab_len ds) E Hd 1 wt →
  ((len ds `mod` 32 ≠ 0)%nat →
     ∃ w', train_epoch epoch loss w = (Raise (TorchError ShapeMismatch), w')
       ∧ steps w' = (steps w + len ds / 32)%nat
       ∧ stdout w' = stdout w
       ∧ (training_loop w).1 = Raise (TorchError ShapeMismatch))
  ∧ (∀ r w', train_epoch epoch loss w = (Ok r, w') →
             (len ds `mod` 32 = 0)%nat).
Proof.
  intros HL Hds Hw Hm.
  assert ((len ds `mod` 32 ≠ 0)%nat → ∀ epoch' loss',
            ∃ w', train_epoch epoch' loss' w
                  = (Raise (TorchError ShapeMismatch), w')
              ∧ steps w' = (steps w + len ds / 32)%nat
              ∧ stdout w' = stdout w) as Hfail.
  { intros Hmod epoch' loss'.
    pose proof (randperm_perm (rng w) (len ds)) as Hperm.
    remember (randperm (rng w) (len ds)) as pg eqn:Hpg.
    assert (length pg.1 = len ds) as Hlen
      by (by rewrite Hperm, length_seq).
    assert (Forall (λ i, (i < len ds)%nat) pg.1) as Hbelow.
    { rewrite Hperm. apply Forall_forall. intros i Hi%elem_of_seq. lia. }
    destruct (batches_of_partial (λ i, (i < len ds)%nat) pg.1)
      as (full & last & Hbatches & Hfull & Hfulls & Hne & Hlast & Hlasts);
      [by rewrite Hlen|done|].
    destruct (train_full_batches L ps ds E Hd full [last] HL Hds Hfulls
                (zeros [1; 32; Hd]%nat) (zeros [1; 32; Hd]%nat) loss'
                (set_rng pg.2 w) wt Hw Hm
                (has_shape_zeros _) (has_shape_zeros _))
      as (h' & c' & loss'' & w' & wt' & Hrun & Hh' & _ & Hw' & Hm' & Hs' & Ho').
    exists w'. split_and!.
    - apply train_epoch_Raise. rewrite Hw, <-Hpg, Hm.
      change (init_hidden (LSTMModel_init (vocab_len ds) E Hd 1 wt) batch_size)
        with (zeros [1; 32; Hd]%nat, zeros [1; 32; Hd]%nat).
      change batch_size with 32%nat. rewrite Hbatches, Hrun.
      apply (train_batch_mismatch L ps ds E Hd last [] h' c' loss'' w' wt');
        try done.
      destruct Hh' as [-> _]. intros [= Heq]. by apply Hlast.
    - rewrite Hs', Hfull, Hlen. done.
    - by rewrite Ho'. }
  split.
  - intros Hmod. destruct (Hfail Hmod epoch loss) as (w' & Hrun & Hs & Ho).
    exists w'. split_and!; try done.
    destruct (Hfail Hmod 0%nat None) as (w0 & Hrun0 & _).
    unfold training_loop, train.
    change (Z.to_nat <$> range 0 10)
      with (0%nat :: (Z.to_nat <$> range 1 10)).
    simpl. unfold mbind, M_bind. by rewrite Hrun0.
  - intros r w' Hok.
    destruct (decide (len ds `mod` 32 = 0)%nat) as [|Hmod]; [done|].
    destruct (Hfail Hmod epoch loss) as (w'' & Hrun & _). congruence.
Qed.

End training_theorems.

(** ** The theorems at the small instance *)

Lemma sampler_greedy_witness :
  ∃ gen, length gen = 5%nat
    ∧ predict (model (Toy.world (Toy.the_dataset 2 [Toy.abac; Toy.bc]) 1))
        Toy.abac 5 (Toy.world (Toy.the_dataset 2 [Toy.abac; Toy.bc]) 1)
      = (Ok (),
         add_output (Text (Toy.abac ++ gen))
           (Toy.world (Toy.the_dataset 2 [Toy.abac; Toy.bc]) 1)).
Proof.
  destruct (@sampler_greedy Toy.lib toy_laws 2 [Toy.abac; Toy.bc]
              (Toy.the_dataset 2 [Toy.abac; Toy.bc]) 4 3 0
              (model (Toy.world (Toy.the_dataset 2 [Toy.abac; Toy.bc]) 1))
              Toy.abac 5
              (Toy.world (Toy.the_dataset 2 [Toy.abac; Toy.bc]) 1))
    as [_ Hrun].
  - vm_compute. reflexivity.
  - reflexivity.
  - apply (bool_decide_unpack _). vm_compute. exact I.
  - destruct Hrun as (codes & gen & _ & _ & Hlen & Hp).
    + discriminate.
    + lia.
    + exists gen. split; [lia | exact Hp].
Defined.

(** C4 (as stated) fails on the empty seed, a string all of whose
    characters are in the vocabulary: with a continuation length of 1 the
    sampler raises and prints nothing. *)
Lemma sampler_empty_seed_fails :
  Forall (λ c, c ∈ join [Toy.abac; Toy.bc]) []
  ∧ predict (model (Toy.world (Toy.the_dataset 2 [Toy.abac; Toy.bc]) 1))
      [] 1 (Toy.world (Toy.the_dataset 2 [Toy.abac; Toy.bc]) 1)
    = (Raise (TorchError OtherFailure),
       Toy.world (Toy.the_dataset 2 [Toy.abac; Toy.bc]) 1)
  ∧ ¬ ∃ gen,
      predict (model (Toy.world (Toy.the_dataset 2 [Toy.abac; Toy.bc]) 1))
        [] 1 (Toy.world (Toy.the_dataset 2 [Toy.abac; Toy.bc]) 1)
      = (Ok (), add_output (Text ([] ++ gen))
                  (Toy.world (Toy.the_dataset 2 [Toy.abac; Toy.bc]) 1)).
Proof.
  assert (predict (model (Toy.world (Toy.the_dataset 2 [Toy.abac; Toy.bc]) 1))
            [] 1 (Toy.world (Toy.the_dataset 2 [Toy.abac; Toy.bc]) 1)
          = (Raise (TorchError OtherFailure),
             Toy.world (Toy.the_dataset 2 [Toy.abac; Toy.bc]) 1)) as Hrun
    by (vm_compute; reflexivity).
  split_and!; [constructor|exact Hrun|].
  intros [gen Hgen]. rewrite Hrun in Hgen. discriminate.
Qed.

Lemma sampler_lookup_error_witness :
  (predict (LSTMModel_init
              (vocab_len (Toy.the_dataset 2 [Toy.abac; Toy.bc])) 4 3 1 0)
     [97; 100]%N 3
     (Toy.world (Toy.the_dataset 2 [Toy.abac; Toy.bc]) 1)).1
  = Raise KeyError.
Proof.
  apply (proj1 (@sampler_lookup_error Toy.lib toy_laws 2 [Toy.abac; Toy.bc]
                  (Toy.the_dataset 2 [Toy.abac; Toy.bc]) 4 3 1 0
                  [97; 100]%N 3
                  (Toy.world (Toy.the_dataset 2 [Toy.abac; Toy.bc]) 1)
                  ltac:(vm_compute; reflexivity) eq_refl)).
  exists 100%N. split.
  - apply (bool_decide_unpack _). vm_compute. exact I.
  - vm_compute. reflexivity.
Defined.

Lemma final_batch_shape_error_witness :
  (training_loop (Toy.world (Toy.the_dataset 2 [Toy.abac; Toy.bc]) 1)).1
  = Raise (TorchError ShapeMismatch).
Proof.
  destruct (@final_batch_shape_error Toy.lib toy_laws 2 [Toy.abac; Toy.bc]
              (Toy.the_dataset 2 [Toy.abac; Toy.bc]) 4 3 0
              (Toy.world (Toy.the_dataset 2 [Toy.abac; Toy.bc]) 1)
              0%nat None) as [Hfail _].
  - lia.
  - vm_compute. reflexivity.
  - reflexivity.
  - reflexivity.
  - destruct Hfail as (w' & _ & _ & _ & Hloop).
    + vm_compute. discriminate.
    + exact Hloop.
Defined.

(** * Further properties of the dataset *)

Lemma index_Raise {A} (l : list A) (i : Z) (e : exception) :
  index l i = Raise e → e = IndexError.
Proof.
  unfold index. cbv zeta. case_decide; [|congruence].
  destruct (l !! _); congruence.
Qed.

Lemma index_in_range {A} (l : list A) (i : Z) :
  - Z.of_nat (length l) ≤ i < Z.of_nat (length l) ↔ ∃ x, index l i = Ok x.
Proof.
  unfold index. cbv zeta. split.
  - intros Hi. rewrite decide_True by (case_decide; lia).
    destruct (lookup_lt_is_Some_2 l
                (Z.to_nat (if decide (i < 0) then i + Z.of_nat (length l) else i)))
      as [x Hx]; [case_decide; lia|].
    rewrite Hx. by exists x.
  - intros [x Hx]. repeat case_decide; try done; lia.
Qed.

(** [__getitem__] and the bounds of the dataset: an index is accepted
    exactly when it lies in [-len, len); any other index raises IndexError
    and nothing else is ever raised; a negative index counts from the end. *)
Theorem getitem_sample_bounds (ds : PoemDataset) (i : Z) :
  ((∃ st, getitem_sample ds i = Ok st)
     ↔ - Z.of_nat (len ds) ≤ i < Z.of_nat (len ds))
  ∧ (getitem_sample ds i = Raise IndexError
     ↔ ¬ (- Z.of_nat (len ds) ≤ i < Z.of_nat (len ds)))
  ∧ (∀ e, getitem_sample ds i = Raise e → e = IndexError)
  ∧ (- Z.of_nat (len ds) ≤ i < 0 →
     getitem_sample ds i = getitem_sample ds (i + Z.of_nat (len ds))).
Proof.
  unfold getitem_sample, len.
  pose proof (index_in_range (data ds) i) as Hrange.
  destruct (index (data ds) i) as [w|e] eqn:Hi; simpl.
  - assert (- Z.of_nat (length (data ds)) ≤ i < Z.of_nat (length (data ds)))
      as Hin by (apply Hrange; by eexists).
    split_and!; [split; [done|by eexists]|split; [done|tauto]|done|].
    intros Hneg. revert Hi. unfold index. cbv zeta.
    rewrite (decide_True (P := i < 0)) by lia.
    rewrite (decide_False (P := i + Z.of_nat (length (data ds)) < 0)) by lia.
    by intros ->.
  - pose proof (index_Raise _ _ _ Hi) as ->.
    assert (¬ (- Z.of_nat (length (data ds)) ≤ i < Z.of_nat (length (data ds))))
      as Hout by (intros [x Hx]%Hrange; congruence).
    split_and!; [split; [by intros [? ?]|tauto]|done|by intros ? [= <-]|lia].
Qed.

Lemma slice_Forall2 {A B} (P : A → B → Prop) (l : list A) (k : list B) lo hi :
  Forall2 P l k → Forall2 P (slice l lo hi) (slice k lo hi).
Proof.
  intros Hlk. unfold slice. rewrite <-(Forall2_length _ _ _ Hlk).
  by apply Forall2_take, Forall2_drop.
Qed.

Lemma decode_slice (c2i : gmap N nat) (i2c : gmap nat N) (s : list N) codes
    lo hi :
  (∀ c i, c2i !! c = Some i → i2c !! i = Some c) →
  encode c2i s = Ok codes →
  decode i2c (slice codes lo hi) = Ok (slice s lo hi).
Proof.
  intros Hinv Henc%mapM_Ok. apply mapM_Ok, slice_Forall2.
  apply Forall2_flip. eapply Forall2_impl; [exact Henc|].
  intros c i Hc. unfold getitem in *.
  destruct (c2i !! c) as [i'|] eqn:Hi; [|done]. injection Hc as ->.
  by rewrite (Hinv _ _ Hi).
Qed.

(** Where the windows of a line lie in [data]. *)
Lemma sample_at (L : Z) (ps : list (list N)) ds (j : nat) (poem : list N)
    (i : nat) :
  preprocess L ps = Ok ds → ps !! j = Some poem →
  (i < line_samples L poem)%nat →
  ∃ codes, encode (char2idx ds) poem = Ok codes
    ∧ Z.of_nat i < Z.of_nat (length codes) - L
    ∧ data ds !! (sum_list (line_samples L <$> take j ps) + i)%nat
      = Some (slice codes (Some (Z.of_nat i)) (Some (Z.of_nat i + L + 1))).
Proof.
  intros Hds Hj Hi.
  destruct (preprocess_inv _ _ _ Hds) as (_ & _ & _ & _ & Hdata).
  apply index_poems_Ok in Hdata as (encs & Hencs & Hdata). simpl in Hdata.
  destruct (Forall2_lookup_l _ _ _ _ _ Hencs Hj) as (codes & Hcj & Hcodes).
  pose proof (encode_length _ _ _ Hcodes) as Hlen.
  assert (Z.of_nat i < Z.of_nat (length codes) - L) as Hi'
    by (unfold line_samples in Hi; lia).
  exists codes. split_and!; [done..|].
  rewrite Hdata. apply join_lookup_Some.
  exists j, (windows L codes), i. split_and!.
  - by rewrite list_lookup_fmap, Hcj.
  - by apply windows_lookup.
  - rewrite <-fmap_take.
    by rewrite (windows_lengths (char2idx ds) L (take j ps) (take j encs))
      by (by apply Forall2_take).
Qed.

(** Decoding a sample gives back the text under its window: the input of
    the [i]-th sample of a line decodes to the characters [i .. i+L) of the
    line and its target to the characters [i+1 .. i+L+1). *)
Theorem sample_decodes_to_text (L : Z) (ps : list (list N)) (ds : PoemDataset)
    (j : nat) (poem : list N) (i : nat) :
  0 ≤ L → preprocess L ps = Ok ds → ps !! j = Some poem →
  (i < line_samples L poem)%nat →
  ∃ input target,
    getitem_sample ds (Z.of_nat (sum_list (line_samples L <$> take j ps) + i))
    = Ok (input, target)
    ∧ decode (idx2char ds) input
      = Ok (slice poem (Some (Z.of_nat i)) (Some (Z.of_nat i + L)))
    ∧ decode (idx2char ds) target
      = Ok (slice poem (Some (Z.of_nat i + 1)) (Some (Z.of_nat i + L + 1))).
Proof.
  intros HL Hds Hj Hi.
  destruct (sample_at L ps ds j poem i Hds Hj Hi) as (codes & Hcodes & Hi' & Hw).
  destruct (window_halves L codes i HL Hi') as (_ & Hinit & Htail & _).
  assert (∀ c k, char2idx ds !! c = Some k → idx2char ds !! k = Some c)
    as Hinv.
  { intros c k. by rewrite (char2idx_lookup L ps), (idx2char_lookup L ps). }
  eexists _, _. split_and!.
  - unfold getitem_sample. rewrite (index_lookup _ _ _ Hw). simpl. reflexivity.
  - rewrite Hinit. by eapply decode_slice.
  - rewrite Htail. by eapply decode_slice.
Qed.

(** Successive samples of a line overlap: the target of a sample is the
    input of the next sample of the same line. *)
Theorem sample_target_is_next_input (L : Z) (ps : list (list N))
    (ds : PoemDataset) (j : nat) (poem : list N) (i : nat) :
  0 ≤ L → preprocess L ps = Ok ds → ps !! j = Some poem →
  (S i < line_samples L poem)%nat →
  ∃ input target input' target',
    getitem_sample ds (Z.of_nat (sum_list (line_samples L <$> take j ps) + i))
    = Ok (input, target)
    ∧ getitem_sample ds
        (Z.of_nat (sum_list (line_samples L <$> take j ps) + S i))
      = Ok (input', target')
    ∧ target = input'.
Proof.
  intros HL Hds Hj Hi.
  destruct (sample_at L ps ds j poem i Hds Hj ltac:(lia))
    as (codes & Hcodes & Hi1 & Hw1).
  destruct (sample_at L ps ds j poem (S i) Hds Hj Hi)
    as (codes' & Hcodes' & Hi2 & Hw2).
  assert (codes' = codes) as -> by congruence.
  destruct (window_halves L codes i HL Hi1) as (_ & _ & Htail & _).
  destruct (window_halves L codes (S i) HL Hi2) as (_ & Hinit & _).
  eexists _, _, _, _. split_and!.
  - unfold getitem_sample. rewrite (index_lookup _ _ _ Hw1). simpl. reflexivity.
  - unfold getitem_sample. rewrite (index_lookup _ _ _ Hw2). simpl. reflexivity.
  - rewrite Htail, Hinit. f_equal; f_equal; lia.
Qed.

(** ** The lines of the file *)

Lemma split_lines_cons (s : list N) : ∃ h t, split_lines s = h :: t.
Proof.
  induction s as [|c r (h & t & IH)]; simpl; [by eexists _, _|].
  case_decide; [by eexists _, _|]. rewrite IH. by eexists _, _.
Qed.

Lemma join_split_lines (s : list N) :
  join (split_lines s) = filter (λ c, c ≠ newline) s.
Proof.
  unfold join. induction s as [|c r IH]; [done|]. simpl.
  destruct (split_lines_cons r) as (h & t & Hr). rewrite Hr in IH |- *.
  case_decide as Hc.
  - rewrite filter_cons_False by (intros ?; done). exact IH.
  - rewrite filter_cons_True by done. simpl in *. by rewrite IH.
Qed.

Lemma split_lines_no_newline (s : list N) :
  Forall (λ p, newline ∉ p) (split_lines s).
Proof.
  induction s as [|c r IH]; simpl.
  { repeat constructor. by intros ?%elem_of_nil. }
  destruct (split_lines_cons r) as (h & t & Hr). rewrite Hr in IH |- *.
  apply Forall_cons in IH as [Hh Ht].
  case_decide as Hc.
  - constructor; [by intros ?%elem_of_nil | by constructor].
  - constructor; [|done]. intros [?|?]%elem_of_cons; [congruence|done].
Qed.

Lemma split_lines_length (s : list N) :
  length (split_lines s) = S (length (filter (λ c, c = newline) s)).
Proof.
  induction s as [|c r IH]; [done|]. simpl.
  destruct (split_lines_cons r) as (h & t & Hr). rewrite Hr in IH |- *.
  case_decide as Hc.
  - rewrite filter_cons_True by done. simpl in *. lia.
  - rewrite filter_cons_False by done. simpl in *. lia.
Qed.

(** [PoemDataset(file)] never fails on the text of a file; it has one line
    more than the text has newlines, no line holds a newline, and the
    characters with a code are exactly the characters of the text other
    than the newline, which therefore never has a code. *)
Theorem file_vocabulary (contents : list N) (L : Z) :
  ∃ ds, PoemDataset_init contents L = Ok ds
    ∧ poems ds = split_lines contents
    ∧ length (poems ds) = S (length (filter (λ c, c = newline) contents))
    ∧ Forall (λ p, newline ∉ p) (poems ds)
    ∧ (∀ c, is_Some (char2idx ds !! c) ↔ c ∈ contents ∧ c ≠ newline)
    ∧ char2idx ds !! newline = None
    ∧ vocab_len ds
      = size (list_to_set (filter (λ c, c ≠ newline) contents) : gset N).
Proof.
  unfold PoemDataset_init.
  destruct (preprocess_total L (split_lines contents)) as [ds Hds].
  exists ds.
  destruct (preprocess_inv _ _ _ Hds) as (_ & Hps & _).
  assert (∀ c, is_Some (char2idx ds !! c) ↔ c ∈ contents ∧ c ≠ newline)
    as Hvoc.
  { intros c. rewrite (char2idx_is_Some L _ ds c Hds), join_split_lines.
    rewrite list_elem_of_filter. tauto. }
  split_and!; [done|done| | |done| |].
  - rewrite Hps. apply split_lines_length.
  - rewrite Hps. apply split_lines_no_newline.
  - apply eq_None_not_Some. rewrite Hvoc. tauto.
  - rewrite (vocab_len_chars L _ ds Hds). unfold chars_of.
    by rewrite sorted_set_Permutation, join_split_lines.
Qed.

(** * Further properties of the model and the sampler *)

Section model_extras.
Context `{!TorchLib, !TorchLaws}.

(** [forward] wires the three layers consistently: on a batch of [B]
    sequences of [T] codes below the vocabulary size, a one-layer model
    started from [init_hidden(B)] returns scores of shape [[B, T, V]] and a
    state of the shape it was given, which it accepts again with any
    further batch of [B] sequences. *)
Theorem forward_from_init_hidden (V E Hd : nat) (w : Weights)
    (x : list (list nat)) (B T : nat) :
  (0 < B)%nat → (0 < T)%nat → rect x B T → codes_below V x →
  ∃ out h' c',
    forward (LSTMModel_init V E Hd 1 w) x
      (init_hidden (LSTMModel_init V E Hd 1 w) B) = Ok (out, (h', c'))
    ∧ has_shape out [B; T; V]
    ∧ has_shape h' [1%nat; B; Hd] ∧ has_shape c' [1%nat; B; Hd]
    ∧ ∀ x' T', (0 < T')%nat → rect x' B T' → codes_below V x' →
        ∃ out' hidden'',
          forward (LSTMModel_init V E Hd 1 w) x' (h', c')
          = Ok (out', hidden'')
          ∧ has_shape out' [B; T'; V].
Proof.
  intros HB HT Hx Hcodes.
  destruct (forward_ok V E Hd 1 w x (zeros [1; B; Hd]%nat)
              (zeros [1; B; Hd]%nat) B T HB HT Hx Hcodes
              (has_shape_zeros _) (has_shape_zeros _))
    as (out & h' & c' & Hfw & Hout & Hh' & Hc').
  exists out, h', c'. split_and!; [exact Hfw|done..|].
  intros x' T' HT' Hx' Hcodes'.
  destruct (forward_ok V E Hd 1 w x' h' c' B T' HB HT' Hx' Hcodes' Hh' Hc')
    as (out' & h'' & c'' & Hfw' & Hout' & _).
  by exists out', (h'', c'').
Qed.

Lemma forward_multi_layer (V E Hd nl : nat) (w : Weights)
    (x : list (list nat)) (B B' T : nat) :
  (1 < nl)%nat → (0 < B)%nat → (0 < T)%nat → rect x B T → codes_below V x →
  forward (LSTMModel_init V E Hd nl w) x
    (init_hidden (LSTMModel_init V E Hd nl w) B')
  = Raise (TorchError ShapeMismatch).
Proof.
  intros Hnl HB HT Hx Hcodes.
  apply (forward_hidden_mismatch V E Hd nl w x _ _ B T HB HT Hx Hcodes).
  left. simpl. intros [= ? ?]. lia.
Qed.

(** With a model of two or more recurrent layers the sampler cannot take
    a step: [init_hidden] gives a one-layer state, the recurrent layer
    rejects it, and [predict] raises the shape error and prints nothing. *)
Theorem predict_multi_layer_fails (L : Z) (ps : list (list N))
    (ds : PoemDataset) (E Hd nl : nat) (wt : Weights) (seed : list N)
    (n : Z) (w : World) :
  preprocess L ps = Ok ds → dataset w = ds →
  (1 < nl)%nat → seed ≠ [] → Forall (λ c, c ∈ join ps) seed → 0 < n →
  predict (LSTMModel_init (vocab_len ds) E Hd nl wt) seed n w
  = (Raise (TorchError ShapeMismatch), w).
Proof.
  intros Hds Hw Hnl Hne Hseed Hn.
  destruct (encode_in_vocabulary (char2idx ds) seed) as [codes Hcodes].
  { eapply Forall_impl; [exact Hseed|]. intros c Hc.
    by apply (char2idx_is_Some L ps). }
  pose proof (encode_codes_below _ _ _ _ _ Hds Hcodes) as Hbelow.
  pose proof (encode_length _ _ _ Hcodes) as Hlen.
  rewrite predict_run, Hw, Hcodes.
  destruct (Z.to_nat n) as [|k] eqn:Hk; [lia|]. simpl predict_loop.
  rewrite (forward_multi_layer (vocab_len ds) E Hd nl wt [codes] 1 1
             (length codes)); [done|done|lia| | |].
  - destruct codes, seed; simpl in *; try done; lia.
  - split; [done|by constructor].
  - by constructor.
Qed.

End model_extras.

Section sampler_extras.
Context `{!TorchLib}.

Lemma predict_loop_length (i2c : gmap nat N) (m : LSTMModel) (n : nat)
    x hidden text t :
  predict_loop i2c m n x hidden text = Ok t →
  ∃ gen, t = text ++ gen ∧ length gen = n.
Proof.
  revert x hidden text. induction n as [|n IH]; intros x hidden text; simpl.
  { intros [= <-]. exists []. by rewrite app_nil_r. }
  destruct (forward m x hidden) as [[out hidden']|e]; simpl; [|done].
  destruct (argmax_dim2 out) as [am|e]; simpl; [|done].
  destruct (select_last am) as [pi|e]; simpl; [|done].
  destruct (item pi) as [i|e]; simpl; [|done].
  destruct (getitem i2c i) as [ch|e]; simpl; [|done].
  intros (gen & -> & Hlen)%IH. exists (ch :: gen).
  split; [by rewrite <-app_assoc | simpl; lia].
Qed.

Lemma predict_loop_prefix (i2c : gmap nat N) (m : LSTMModel) (n k : nat)
    x hidden text t :
  predict_loop i2c m (n + k) x hidden text = Ok t →
  predict_loop i2c m n x hidden text = Ok (take (length text + n) t).
Proof.
  revert x hidden text. induction n as [|n IH]; intros x hidden text.
  { intros (gen & -> & _)%predict_loop_length. simpl.
    by rewrite Nat.add_0_r, take_app_length. }
  simpl.
  destruct (forward m x hidden) as [[out hidden']|e]; simpl; [|done].
  destruct (argmax_dim2 out) as [am|e]; simpl; [|done].
  destruct (select_last am) as [pi|e]; simpl; [|done].
  destruct (item pi) as [i|e]; simpl; [|done].
  destruct (getitem i2c i) as [ch|e]; simpl; [|done].
  intros Ht%IH. rewrite Ht. f_equal. f_equal.
  rewrite length_app. simpl. lia.
Qed.

(** Greedy sampling is stable under the continuation length: when the
    sampler prints a text for a length [n'], then for every shorter length
    [n] it prints the first [len(seed) + n] characters of that text. *)
Theorem predict_prefix (m : LSTMModel) (seed : list N) (n n' : Z)
    (w : World) :
  0 ≤ n ≤ n' →
  (predict m seed n' w).1 = Ok () →
  ∃ text,
    predict m seed n' w = (Ok (), add_output (Text text) w)
    ∧ predict m seed n w
      = (Ok (), add_output (Text (take (length seed + Z.to_nat n) text)) w)
    ∧ length text = (length seed + Z.to_nat n')%nat.
Proof.
  intros Hn. rewrite !predict_run.
  destruct (encode (char2idx (dataset w)) seed) as [codes|e]; [|done].
  destruct (predict_loop _ m (Z.to_nat n') _ _ _) as [t|e] eqn:Hloop;
    [|done].
  intros _. exists t.
  pose proof (predict_loop_length _ _ _ _ _ _ _ Hloop) as (gen & Ht & Hgen).
  replace (Z.to_nat n') with (Z.to_nat n + (Z.to_nat n' - Z.to_nat n))%nat
    in Hloop by lia.
  apply predict_loop_prefix in Hloop. rewrite Hloop.
  split_and!; [done..|]. rewrite Ht, length_app. lia.
Qed.

End sampler_extras.

Lemma forward_from_init_hidden_witness :
  ∃ out hidden',
    forward (LSTMModel_init 3 4 3 1 (0 : @Weights Toy.lib))
      [[0; 1; 2]; [2; 1; 0]]%nat
      (init_hidden (LSTMModel_init 3 4 3 1 (0 : @Weights Toy.lib)) 2)
    = Ok (out, hidden')
    ∧ has_shape out [2; 3; 3]%nat.
Proof.
  destruct (@forward_from_init_hidden Toy.lib toy_laws 3 4 3 0
              [[0; 1; 2]; [2; 1; 0]]%nat 2 3)
    as (out & h' & c' & Hfw & Hout & _).
  - lia.
  - lia.
  - split; [reflexivity|]. repeat constructor.
  - repeat constructor.
  - exists out, (h', c'). split; [exact Hfw | exact Hout].
Defined.

Lemma predict_multi_layer_fails_witness :
  predict (LSTMModel_init
             (vocab_len (Toy.the_dataset 2 [Toy.abac; Toy.bc])) 4 3 2
             (0 : @Weights Toy.lib))
    Toy.abac 5 (Toy.world (Toy.the_dataset 2 [Toy.abac; Toy.bc]) 2)
  = (Raise (TorchError ShapeMismatch),
     Toy.world (Toy.the_dataset 2 [Toy.abac; Toy.bc]) 2).
Proof.
  apply (@predict_multi_layer_fails Toy.lib toy_laws 2 [Toy.abac; Toy.bc]
           (Toy.the_dataset 2 [Toy.abac; Toy.bc]) 4 3 2 0 Toy.abac 5
           (Toy.world (Toy.the_dataset 2 [Toy.abac; Toy.bc]) 2)).
  - vm_compute. reflexivity.
  - reflexivity.
  - lia.
  - discriminate.
  - apply (bool_decide_unpack _). vm_compute. exact I.
  - lia.
Defined.

Lemma predict_prefix_witness :
  ∃ text,
    predict (model (Toy.world (Toy.the_dataset 2 [Toy.abac; Toy.bc]) 1))
      Toy.bc 2 (Toy.world (Toy.the_dataset 2 [Toy.abac; Toy.bc]) 1)
    = (Ok (), add_output (Text (take 4 text))
                (Toy.world (Toy.the_dataset 2 [Toy.abac; Toy.bc]) 1)).
Proof.
  destruct (@predict_prefix Toy.lib
              (model (Toy.world (Toy.the_dataset 2 [Toy.abac; Toy.bc]) 1))
              Toy.bc 2 5
              (Toy.world (Toy.the_dataset 2 [Toy.abac; Toy.bc]) 1))
    as (text & _ & Hn & _).
  - lia.
  - vm_compute. reflexivity.
  - exists text. exact Hn.
Defined.

(** * Further properties of the training loop *)

Section training_frame.
Context `{!TorchLib}.

Lemma extends_refl (w : World) : extends w w.
Proof. unfold extends. split_and!; done. Qed.

Lemma extends_trans (w1 w2 w3 : World) :
  extends w1 w2 → extends w2 w3 → extends w1 w3.
Proof.
  intros (? & ? & ? & ? & ? & ? & Hw12 & ?) (? & ? & ? & ? & ? & ? & Hw23 & ?).
  unfold extends. split_and!; try congruence; try lia; try (by etrans).
  intros Hs. destruct Hw12 as [? ?]; [lia|].
  destruct Hw23 as [? ?]; [lia|]. split; congruence.
Qed.

Lemma extends_add_output (o : output) (w : World) :
  extends w (add_output o w).
Proof.
  unfold extends. simpl. split_and!; try done. by apply prefix_app_r.
Qed.

Lemma extends_set_rng (g : RNG) (w : World) : extends w (set_rng g w).
Proof. unfold extends. simpl. split_and!; done. Qed.

Lemma extends_apply_step (g : Grad) (w : World) : extends w (apply_step g w).
Proof. unfold extends. simpl. split_and!; try done; lia. Qed.

Lemma extends_predict (m : LSTMModel) (seed : list N) (n : Z) (w : World) :
  extends w (predict m seed n w).2.
Proof.
  rewrite predict_run.
  destruct (encode _ seed) as [codes|e]; [|apply extends_refl].
  destruct (predict_loop _ _ _ _ _ _) as [text|e];
    [apply extends_add_output | apply extends_refl].
Qed.

Lemma train_batches_step (idxs : list nat) rest hidden loss (w : World) :
  train_batches (idxs :: rest) hidden loss w
  = match fetch (dataset w) idxs with
    | Raise e => (Raise e, w)
    | Ok (seq, targets) =>
        match forward (model w) seq hidden with
        | Raise e => (Raise e, w)
        | Ok (output, hidden') =>
            match CrossEntropyLoss (transpose12 output) targets with
            | inl te => (Raise (TorchError te), w)
            | inr l =>
                train_batches rest hidden' (Some l)
                  (apply_step
                     (backward (weights (model w)) seq hidden targets) w)
            end
        end
    end.
Proof.
  simpl. unfold mbind, M_bind, gets, lift, optimizer_step, modify. simpl.
  destruct (fetch (dataset w) idxs) as [[seq targets]|e]; [|done].
  destruct (forward (model w) seq hidden) as [[output hidden']|e]; [|done].
  by destruct (CrossEntropyLoss (transpose12 output) targets) as [te|l].
Qed.

Lemma extends_train_batches (batches : list (list nat)) hidden loss
    (w : World) :
  extends w (train_batches batches hidden loss w).2.
Proof.
  revert hidden loss w. induction batches as [|idxs rest IH];
    intros hidden loss w; [apply extends_refl|].
  rewrite train_batches_step.
  destruct (fetch _ _) as [[seq targets]|e]; [|apply extends_refl].
  destruct (forward _ _ _) as [[output hidden']|e]; [|apply extends_refl].
  destruct (CrossEntropyLoss _ _) as [te|l]; [apply extends_refl|].
  eapply extends_trans; [apply extends_apply_step | apply IH].
Qed.

(** The loop on the batches returns a loss as soon as it ran one batch. *)
Lemma train_batches_loss (batches : list (list nat)) hidden loss
    (w w' : World) r :
  train_batches batches hidden loss w = (Ok r, w') →
  batches ≠ [] ∨ is_Some loss → is_Some r.
Proof.
  revert hidden loss w. induction batches as [|idxs rest IH];
    intros hidden loss w.
  { simpl. intros [= <- <-] [?|?]; done. }
  rewrite train_batches_step.
  destruct (fetch _ _) as [[seq targets]|e]; [|done].
  destruct (forward _ _ _) as [[output hidden']|e]; [|done].
  destruct (CrossEntropyLoss _ _) as [te|l]; [done|].
  intros Hrun _. eapply IH; [exact Hrun|]. right. by eexists.
Qed.

Lemma train_epoch_run (epoch : nat) (loss : option Score) (w : World) :
  train_epoch epoch loss w
  = match train_batches
            (batches_of batch_size (randperm (rng w) (len (dataset w))).1)
            (init_hidden (model w) batch_size) loss
            (set_rng (randperm (rng w) (len (dataset w))).2 w) with
    | (Raise e, w1) => (Raise e, w1)
    | (Ok None, w1) => (Raise NameError, w1)
    | (Ok (Some l), w1) =>
        match predict (model w1) epoch_seed 6
                (add_output (EpochLoss (epoch + 1) l) w1) with
        | (Ok _, w2) => (Ok (Some l), w2)
        | (Raise e, w2) => (Raise e, w2)
        end
    end.
Proof.
  unfold train_epoch, mbind, M_bind, gets, draw_perm, lift, print, modify.
  simpl.
  by destruct (train_batches _ _ _ _) as [[[l|]|e] w1].
Qed.

Lemma extends_train_epoch (epoch : nat) loss (w : World) :
  extends w (train_epoch epoch loss w).2.
Proof.
  rewrite train_epoch_run.
  pose proof (extends_train_batches
    (batches_of batch_size (randperm (rng w) (len (dataset w))).1)
    (init_hidden (model w) batch_size) loss
    (set_rng (randperm (rng w) (len (dataset w))).2 w)) as Hb.
  destruct (train_batches _ _ _ _) as [[[l|]|e] w1]; simpl in Hb.
  - pose proof (extends_predict (model w1) epoch_seed 6
                  (add_output (EpochLoss (epoch + 1) l) w1)) as Hp.
    destruct (predict _ _ _ _) as [[[]|e] w2]; simpl in *;
      (eapply extends_trans; [apply extends_set_rng|];
       eapply extends_trans; [exact Hb|];
       eapply extends_trans; [apply extends_add_output | exact Hp]).
  - simpl. eapply extends_trans; [apply extends_set_rng | exact Hb].
  - simpl. eapply extends_trans; [apply extends_set_rng | exact Hb].
Qed.

(** Whatever the number of epochs and however the run ends, the training
    loop never changes the dataset or the sizes of the model's layers; its
    step count and its output only grow, and without an optimiser step the
    parameters and the optimiser state are the initial ones. *)
Theorem train_frame (E : Z) (w : World) : extends w (train E w).2.
Proof.
  unfold train. generalize (Z.to_nat <$> range 0 E) (@None Score).
  intros epochs. revert w. induction epochs as [|epoch rest IH];
    intros w loss; [apply extends_refl|].
  simpl. unfold mbind, M_bind.
  pose proof (extends_train_epoch epoch loss w) as He.
  destruct (train_epoch epoch loss w) as [[loss'|e] w1]; simpl in *; [|done].
  eapply extends_trans; [exact He | apply IH].
Qed.

End training_frame.

Lemma batches_of_full (P : nat → Prop) (idxs : list nat) :
  (length idxs `mod` 32 = 0)%nat → Forall P idxs →
  length (batches_of 32 idxs) = (length idxs / 32)%nat
  ∧ Forall (λ b, length b = 32%nat ∧ Forall P b) (batches_of 32 idxs).
Proof.
  intros Hmod HP. unfold batches_of.
  remember (length idxs) as n eqn:Hn.
  pose proof (Nat.div_mod_eq n 32) as Hdm.
  assert ((n + 32 - 1) / 32 = n / 32)%nat as Hq.
  { symmetry. apply (Nat.div_unique _ 32 _ 31); lia. }
  rewrite Hq. split; [by rewrite length_fmap, length_seq|].
  rewrite Forall_fmap, Forall_forall. intros k Hk%elem_of_seq. cbv beta.
  unfold compose. split; [|by apply Forall_take, Forall_drop].
  rewrite length_take, length_drop, <-Hn. lia.
Qed.

Lemma batches_of_first (P : nat → Prop) (idxs : list nat) :
  idxs ≠ [] → Forall P idxs →
  ∃ b rest, batches_of 32 idxs = b :: rest ∧ b ≠ [] ∧ Forall P b.
Proof.
  intros Hne HP. unfold batches_of.
  assert (0 < (length idxs + 32 - 1) / 32)%nat as Hq.
  { apply Nat.div_str_pos. destruct idxs; [done|simpl; lia]. }
  destruct ((length idxs + 32 - 1) / 32)%nat as [|q]; [lia|].
  rewrite <-cons_seq, fmap_cons. eexists _, _. split; [reflexivity|].
  split; [|by apply Forall_take, Forall_drop].
  destruct idxs; [done|]. simpl. done.
Qed.

Lemma range_to_nat (E : Z) : Z.to_nat <$> range 0 E = seq 0 (Z.to_nat E).
Proof.
  unfold range, seqZ. rewrite Z.sub_0_r, <-list_fmap_compose.
  rewrite <-(list_fmap_id (seq 0 (Z.to_nat E))) at 2.
  apply list_fmap_ext. intros i x _. simpl. lia.
Qed.

Section training_extras.
Context `{!TorchLib, !TorchLaws}.

(** The sampler on a seed of the vocabulary. *)
Lemma predict_ok (L : Z) (ps : list (list N)) ds (E Hd : nat) (wt : Weights)
    (seed : list N) (n : Z) (w : World) :
  preprocess L ps = Ok ds → dataset w = ds →
  seed ≠ [] → Forall (λ c, c ∈ join ps) seed →
  ∃ gen, length gen = Z.to_nat n
    ∧ predict (LSTMModel_init (vocab_len ds) E Hd 1 wt) seed n w
      = (Ok (), add_output (Text (seed ++ gen)) w).
Proof.
  intros Hds Hw Hne Hseed.
  destruct (encode_in_vocabulary (char2idx ds) seed) as [codes Hcodes].
  { eapply Forall_impl; [exact Hseed|]. intros c Hc.
    by apply (char2idx_is_Some L ps). }
  pose proof (encode_codes_below _ _ _ _ _ Hds Hcodes) as Hbelow.
  pose proof (encode_length _ _ _ Hcodes) as Hlen.
  destruct (predict_loop_ok (idx2char ds) (vocab_len ds) E Hd wt (Z.to_nat n)
              (λ i, idx2char_below L ps ds i Hds)
              codes (zeros [1; 1; Hd]%nat) (zeros [1; 1; Hd]%nat) seed)
    as (gen & Hloop & Hgen & _).
  - destruct codes, seed; simpl in *; done.
  - done.
  - apply has_shape_zeros.
  - apply has_shape_zeros.
  - exists gen. split; [done|].
    rewrite predict_run, Hw, Hcodes.
    change (init_hidden (LSTMModel_init (vocab_len ds) E Hd 1 wt) 1)
      with (zeros [1; 1; Hd]%nat, zeros [1; 1; Hd]%nat).
    by rewrite Hloop.
Qed.

(** The pass over the batches of an epoch, on a dataset of a positive
    multiple of 32 samples. *)
Lemma train_epoch_batches_ok (L : Z) (ps : list (list N)) ds (E Hd : nat)
    (wt : Weights) (w : World) (loss : option Score) :
  0 < L → preprocess L ps = Ok ds → dataset w = ds →
  model w = LSTMModel_init (vocab_len ds) E Hd 1 wt →
  (0 < len ds)%nat → (len ds `mod` 32 = 0)%nat →
  ∃ l w1 wt1,
    train_batches
      (batches_of batch_size (randperm (rng w) (len (dataset w))).1)
      (init_hidden (model w) batch_size) loss
      (set_rng (randperm (rng w) (len (dataset w))).2 w)
    = (Ok (Some l), w1)
    ∧ dataset w1 = ds
    ∧ model w1 = LSTMModel_init (vocab_len ds) E Hd 1 wt1
    ∧ steps w1 = (steps w + len ds / 32)%nat
    ∧ stdout w1 = stdout w.
Proof.
  intros HL Hds Hw Hm Hpos Hmod.
  pose proof (randperm_perm (rng w) (len ds)) as Hperm.
  rewrite Hw. remember (randperm (rng w) (len ds)) as pg eqn:Hpg.
  assert (length pg.1 = len ds) as Hlen by (by rewrite Hperm, length_seq).
  assert (Forall (λ i, (i < len ds)%nat) pg.1) as Hbelow.
  { rewrite Hperm. apply Forall_forall. intros i Hi%elem_of_seq. lia. }
  destruct (batches_of_full (λ i, (i < len ds)%nat) pg.1)
    as [Hcount Hfull]; [by rewrite Hlen|done|].
  destruct (train_full_batches L ps ds E Hd (batches_of 32 pg.1) [] HL Hds
              Hfull (zeros [1; 32; Hd]%nat) (zeros [1; 32; Hd]%nat) loss
              (set_rng pg.2 w) wt Hw Hm
              (has_shape_zeros _) (has_shape_zeros _))
    as (h' & c' & loss' & w1 & wt1 & Hrun & _ & _ & Hw1 & Hm1 & Hs1 & Ho1).
  rewrite app_nil_r in Hrun. simpl in Hrun.
  assert (is_Some loss') as [l ->].
  { eapply (train_batches_loss (batches_of 32 pg.1)); [exact Hrun|].
    left. intros Hnil.
    assert (length (batches_of 32 pg.1) = 0%nat) as Hzero
      by (by rewrite Hnil).
    rewrite Hcount, Hlen in Hzero.
    pose proof (Nat.div_mod_eq (len ds) 32). lia. }
  exists l, w1, wt1. split_and!; [|done|done| |done].
  - rewrite Hm.
    change (init_hidden (LSTMModel_init (vocab_len ds) E Hd 1 wt) batch_size)
      with (zeros [1; 32; Hd]%nat, zeros [1; 32; Hd]%nat).
    exact Hrun.
  - rewrite Hs1, Hcount, Hlen. done.
Qed.

Lemma train_epoch_ok (L : Z) (ps : list (list N)) ds (E Hd : nat)
    (wt : Weights) (w : World) (epoch : nat) (loss : option Score) :
  0 < L → preprocess L ps = Ok ds → dataset w = ds →
  model w = LSTMModel_init (vocab_len ds) E Hd 1 wt →
  (0 < len ds)%nat → (len ds `mod` 32 = 0)%nat →
  Forall (λ c, c ∈ join ps) epoch_seed →
  ∃ l gen w' wt',
    train_epoch epoch loss w = (Ok (Some l), w')
    ∧ dataset w' = ds
    ∧ model w' = LSTMModel_init (vocab_len ds) E Hd 1 wt'
    ∧ steps w' = (steps w + len ds / 32)%nat
    ∧ length gen = 6%nat
    ∧ stdout w'
      = stdout w ++ [EpochLoss (epoch + 1) l; Text (epoch_seed ++ gen)].
Proof.
  intros HL Hds Hw Hm Hpos Hmod Hseed.
  destruct (train_epoch_batches_ok L ps ds E Hd wt w loss HL Hds Hw Hm
              Hpos Hmod) as (l & w1 & wt1 & Hrun & Hw1 & Hm1 & Hs1 & Ho1).
  destruct (predict_ok L ps ds E Hd wt1 epoch_seed 6
              (add_output (EpochLoss (epoch + 1) l) w1) Hds Hw1
              ltac:(done) Hseed) as (gen & Hgen & Hp).
  exists l, gen,
    (add_output (Text (epoch_seed ++ gen))
       (add_output (EpochLoss (epoch + 1) l) w1)), wt1.
  split_and!; [by rewrite train_epoch_run, Hrun, Hm1, Hp|..];
    simpl; try done.
  by rewrite Ho1, <-app_assoc.
Qed.

Lemma train_epochs_ok (L : Z) (ps : list (list N)) ds (E Hd : nat) (n : nat) :
  0 < L → preprocess L ps = Ok ds →
  (0 < len ds)%nat → (len ds `mod` 32 = 0)%nat →
  Forall (λ c, c ∈ join ps) epoch_seed →
  ∀ (a : nat) (wt : Weights) (w : World) (loss : option Score),
    dataset w = ds →
    model w = LSTMModel_init (vocab_len ds) E Hd 1 wt →
    ∃ (runs : list (Score * list N)) w' wt',
      train_epochs (seq a n) loss w = (Ok (), w')
      ∧ length runs = n
      ∧ Forall (λ r, length r.2 = 6%nat) runs
      ∧ stdout w'
        = stdout w
          ++ mjoin (imap (λ k r, [EpochLoss (a + k + 1) r.1;
                                   Text (epoch_seed ++ r.2)]) runs)
      ∧ steps w' = (steps w + n * (len ds / 32))%nat
      ∧ dataset w' = ds
      ∧ model w' = LSTMModel_init (vocab_len ds) E Hd 1 wt'.
Proof.
  intros HL Hds Hpos Hmod Hseed. induction n as [|n IH];
    intros a wt w loss Hw Hm.
  { exists [], w, wt. simpl. rewrite app_nil_r.
    split_and!; try done; lia. }
  destruct (train_epoch_ok L ps ds E Hd wt w a loss HL Hds Hw Hm Hpos Hmod
              Hseed) as (l & gen & w1 & wt1 & Hrun & Hw1 & Hm1 & Hs1 & Hgen & Ho1).
  destruct (IH (S a) wt1 w1 (Some l) Hw1 Hm1)
    as (runs & w' & wt' & Hrest & Hlen & Hruns & Ho' & Hs' & Hw' & Hm').
  exists ((l, gen) :: runs), w', wt'. split_and!; try done.
  - simpl. unfold mbind, M_bind. rewrite Hrun. exact Hrest.
  - simpl. by rewrite Hlen.
  - by constructor.
  - rewrite Ho', Ho1, imap_cons, <-app_assoc. f_equal.
    rewrite (imap_ext _
               ((λ k r, [EpochLoss (a + k + 1) r.1;
                         Text (epoch_seed ++ r.2)]) ∘ S))
      by (intros k r _; simpl; do 2 f_equal; lia).
    simpl. by rewrite Nat.add_0_r.
  - rewrite Hs', Hs1. lia.
Qed.

(** On a dataset of a positive multiple of 32 samples, built with a
    positive sequence length from a corpus that has the six characters of
    the per-epoch seed, the training loop with a one-layer model ends
    normally: [E] epochs take [E * (len / 32)] optimiser steps, and each
    epoch [k] prints its number [k + 1] with a loss and then the seed
    followed by six generated characters. *)
Theorem training_completes (L : Z) (ps : list (list N)) (ds : PoemDataset)
    (E Hd : nat) (wt : Weights) (w : World) (epochs : Z) :
  0 < L → preprocess L ps = Ok ds → dataset w = ds →
  model w = LSTMModel_init (vocab_len ds) E Hd 1 wt →
  (0 < len ds)%nat → (len ds `mod` 32 = 0)%nat →
  Forall (λ c, c ∈ join ps) epoch_seed →
  ∃ (runs : list (Score * list N)) w',
    train epochs w = (Ok (), w')
    ∧ length runs = Z.to_nat epochs
    ∧ Forall (λ r, length r.2 = 6%nat) runs
    ∧ stdout w'
      = stdout w
        ++ mjoin (imap (λ k r, [EpochLoss (k + 1) r.1;
                                 Text (epoch_seed ++ r.2)]) runs)
    ∧ steps w' = (steps w + Z.to_nat epochs * (len ds / 32))%nat.
Proof.
  intros HL Hds Hw Hm Hpos Hmod Hseed. unfold train. rewrite range_to_nat.
  destruct (train_epochs_ok L ps ds E Hd (Z.to_nat epochs) HL Hds Hpos Hmod
              Hseed 0%nat wt w None Hw Hm)
    as (runs & w' & wt' & Hrun & Hlen & Hruns & Ho & Hs & _).
  by exists runs, w'.
Qed.

(** When the corpus lacks a character of the per-epoch seed, the first
    epoch, on a dataset of a positive multiple of 32 samples, runs all its
    batches, prints the loss, and then fails in the sampler with the
    lookup error; so does the whole loop. *)
Theorem training_seed_lookup_error (L : Z) (ps : list (list N))
    (ds : PoemDataset) (E Hd : nat) (wt : Weights) (w : World)
    (epoch : nat) (loss : option Score) :
  0 < L → preprocess L ps = Ok ds → dataset w = ds →
  model w = LSTMModel_init (vocab_len ds) E Hd 1 wt →
  (0 < len ds)%nat → (len ds `mod` 32 = 0)%nat →
  Exists (λ c, c ∉ join ps) epoch_seed →
  ∃ l w',
    train_epoch epoch loss w = (Raise KeyError, w')
    ∧ steps w' = (steps w + len ds / 32)%nat
    ∧ stdout w' = stdout w ++ [EpochLoss (epoch + 1) l]
    ∧ (training_loop w).1 = Raise KeyError.
Proof.
  intros HL Hds Hw Hm Hpos Hmod Hseed.
  assert (∀ epoch' loss', ∃ l w',
            train_epoch epoch' loss' w = (Raise KeyError, w')
            ∧ steps w' = (steps w + len ds / 32)%nat
            ∧ stdout w' = stdout w ++ [EpochLoss (epoch' + 1) l]) as Hfail.
  { intros epoch' loss'.
    destruct (train_epoch_batches_ok L ps ds E Hd wt w loss' HL Hds Hw Hm
                Hpos Hmod) as (l & w1 & wt1 & Hrun & Hw1 & Hm1 & Hs1 & Ho1).
    exists l, (add_output (EpochLoss (epoch' + 1) l) w1).
    split_and!; simpl; [|done|by rewrite Ho1].
    rewrite train_epoch_run, Hrun, predict_run.
    change (dataset (add_output (EpochLoss (epoch' + 1) l) w1))
      with (dataset w1).
    rewrite Hw1, encode_KeyError; [done|].
    eapply Exists_impl; [exact Hseed|]. intros c Hc. simpl in Hc.
    apply eq_None_not_Some. by rewrite (char2idx_is_Some L ps ds c Hds). }
  destruct (Hfail epoch loss) as (l & w' & Hrun & Hs & Ho).
  exists l, w'. split_and!; try done.
  destruct (Hfail 0%nat None) as (l0 & w0 & Hrun0 & _).
  unfold training_loop, train.
  change (Z.to_nat <$> range 0 10) with (0%nat :: (Z.to_nat <$> range 1 10)).
  simpl. unfold mbind, M_bind. by rewrite Hrun0.
Qed.

(** With a model of two or more recurrent layers, an epoch on a dataset
    that is not empty fails on its first batch, before any optimiser step:
    the state of [init_hidden(32)] has one layer. *)
Theorem training_multi_layer_fails (L : Z) (ps : list (list N))
    (ds : PoemDataset) (E Hd nl : nat) (wt : Weights) (w : World)
    (epoch : nat) (loss : option Score) :
  0 < L → preprocess L ps = Ok ds → dataset w = ds →
  model w = LSTMModel_init (vocab_len ds) E Hd nl wt →
  (1 < nl)%nat → (0 < len ds)%nat →
  ∃ w', train_epoch epoch loss w = (Raise (TorchError ShapeMismatch), w')
    ∧ steps w' = steps w ∧ stdout w' = stdout w
    ∧ weights (model w') = weights (model w).
Proof.
  intros HL Hds Hw Hm Hnl Hpos.
  pose proof (randperm_perm (rng w) (len ds)) as Hperm.
  remember (randperm (rng w) (len ds)) as pg eqn:Hpg.
  assert (length pg.1 = len ds) as Hlen by (by rewrite Hperm, length_seq).
  assert (Forall (λ i, (i < len ds)%nat) pg.1) as Hbelow.
  { rewrite Hperm. apply Forall_forall. intros i Hi%elem_of_seq. lia. }
  destruct (batches_of_first (λ i, (i < len ds)%nat) pg.1)
    as (b & rest & Hbatches & Hne & Hb); [|done|].
  { intros Hnil. rewrite Hnil in Hlen. simpl in Hlen. lia. }
  exists (set_rng pg.2 w). split; [|done].
  rewrite train_epoch_run, Hw, <-Hpg.
  change batch_size with 32%nat. rewrite Hbatches, train_batches_step.
  simpl dataset. simpl model. rewrite Hw, Hm.
  destruct (fetch_ok L ps ds b ltac:(lia) Hds Hne Hb)
    as (seqs & targets & Hfetch & Hseqs & _ & Hbs & _).
  rewrite Hfetch.
  assert (0 < length b)%nat by (destruct b; [done|simpl; lia]).
  by rewrite (forward_multi_layer (vocab_len ds) E Hd nl wt seqs
                (length b) 32 (Z.to_nat L)) by (done || lia).
Qed.

End training_extras.

Section sampler_output.
Context `{!TorchLib}.

(** Whatever the model and the library compute, [predict] either raises
    and leaves the global state as it was, printing nothing, or prints one
    line: a text that begins with the seed and has [max(n, 0)] characters
    more. *)
Theorem predict_all_or_nothing (m : LSTMModel) (seed : list N) (n : Z)
    (w : World) :
  (∃ e, predict m seed n w = (Raise e, w))
  ∨ (∃ gen, predict m seed n w = (Ok (), add_output (Text (seed ++ gen)) w)
            ∧ length gen = Z.to_nat (Z.max n 0)).
Proof.
  rewrite predict_run.
  destruct (encode _ seed) as [codes|e]; [|left; by eexists].
  destruct (predict_loop _ _ _ _ _ _) as [text|e] eqn:Hloop;
    [|left; by eexists].
  apply predict_loop_length in Hloop as (gen & -> & Hgen).
  right. exists gen. split; [done|lia].
Qed.

End sampler_output.

(** ** The further theorems at the small instance *)

Lemma sample_decodes_to_text_witness :
  ∃ input target,
    getitem_sample (Toy.the_dataset 2 [Toy.abac; Toy.bc])
      (Z.of_nat
         (sum_list (line_samples 2 <$> take 0 [Toy.abac; Toy.bc]) + 1))
    = Ok (input, target)
    ∧ decode (idx2char (Toy.the_dataset 2 [Toy.abac; Toy.bc])) input
      = Ok (slice Toy.abac (Some (Z.of_nat 1)) (Some (Z.of_nat 1 + 2)))
    ∧ decode (idx2char (Toy.the_dataset 2 [Toy.abac; Toy.bc])) target
      = Ok (slice Toy.abac (Some (Z.of_nat 1 + 1))
              (Some (Z.of_nat 1 + 2 + 1))).
Proof.
  apply (sample_decodes_to_text 2 [Toy.abac; Toy.bc]
           (Toy.the_dataset 2 [Toy.abac; Toy.bc]) 0 Toy.abac 1).
  - lia.
  - vm_compute. reflexivity.
  - reflexivity.
  - vm_compute. lia.
Defined.

Lemma sample_target_is_next_input_witness :
  ∃ input target input' target',
    getitem_sample (Toy.the_dataset 2 [Toy.abac; Toy.bc])
      (Z.of_nat
         (sum_list (line_samples 2 <$> take 0 [Toy.abac; Toy.bc]) + 0))
    = Ok (input, target)
    ∧ getitem_sample (Toy.the_dataset 2 [Toy.abac; Toy.bc])
        (Z.of_nat
           (sum_list (line_samples 2 <$> take 0 [Toy.abac; Toy.bc]) + 1))
      = Ok (input', target')
    ∧ target = input'.
Proof.
  apply (sample_target_is_next_input 2 [Toy.abac; Toy.bc]
           (Toy.the_dataset 2 [Toy.abac; Toy.bc]) 0 Toy.abac 0).
  - lia.
  - vm_compute. reflexivity.
  - reflexivity.
  - vm_compute. lia.
Defined.

Lemma training_completes_witness :
  ∃ w', train 2 (Toy.world (Toy.the_dataset 2 [ToyPoems.spring]) 1)
        = (Ok (), w')
    ∧ steps w' = 2%nat.
Proof.
  destruct (@training_completes Toy.lib toy_laws 2 [ToyPoems.spring]
              (Toy.the_dataset 2 [ToyPoems.spring]) 4 3 0
              (Toy.world (Toy.the_dataset 2 [ToyPoems.spring]) 1) 2)
    as (runs & w' & Hrun & Hlen & _ & Hout & Hsteps).
  - lia.
  - vm_compute. reflexivity.
  - reflexivity.
  - reflexivity.
  - vm_compute. lia.
  - vm_compute. reflexivity.
  - apply (bool_decide_unpack _). vm_compute. exact I.
  - exists w'. split; [exact Hrun|]. rewrite Hsteps. vm_compute. reflexivity.
Defined.

Lemma training_seed_lookup_error_witness :
  (training_loop (Toy.world (Toy.the_dataset 2 [ToyPoems.abc]) 1)).1
  = Raise KeyError.
Proof.
  destruct (@training_seed_lookup_error Toy.lib toy_laws 2 [ToyPoems.abc]
              (Toy.the_dataset 2 [ToyPoems.abc]) 4 3 0
              (Toy.world (Toy.the_dataset 2 [ToyPoems.abc]) 1) 0%nat None)
    as (l & w' & _ & _ & _ & Hloop).
  - lia.
  - vm_compute. reflexivity.
  - reflexivity.
  - reflexivity.
  - vm_compute. lia.
  - vm_compute. reflexivity.
  - apply Exists_cons_hd. apply (bool_decide_unpack _). vm_compute. exact I.
  - exact Hloop.
Defined.

Lemma training_multi_layer_fails_witness :
  ∃ w', train_epoch 0 None (Toy.world (Toy.the_dataset 2 [ToyPoems.abc]) 2)
        = (Raise (TorchError ShapeMismatch), w')
    ∧ steps w' = 0%nat.
Proof.
  destruct (@training_multi_layer_fails Toy.lib toy_laws 2 [ToyPoems.abc]
              (Toy.the_dataset 2 [ToyPoems.abc]) 4 3 2 0
              (Toy.world (Toy.the_dataset 2 [ToyPoems.abc]) 2) 0%nat None)
    as (w' & Hrun & Hsteps & _).
  - lia.
  - vm_compute. reflexivity.
  - reflexivity.
  - reflexivity.
  - lia.
  - vm_compute. lia.
  - exists w'. split; [exact Hrun | exact Hsteps].
Defined.

(** * The parameters under the training loop *)

Section training_parameters.
Context `{!TorchLib}.










End training_parameters.

